(** * py-caskdb: the DiskStorage engine of [disk_store.py]

    A shallow embedding of the log-structured key-value store and of the
    record codec it imports, followed by the properties of the engine:
    write-then-read, last-write-wins, durability across restart, the shape
    of the KeyDir, and the behaviour on truncated logs and failed writes. *)

From Stdlib Require Import NArith List Lia Bool.
From Stdlib Require Import Strings.Byte.
From stdpp Require Import base option list gmap.

Local Open Scope N_scope.

(** ** Python values

    [bytes] is a sequence of octets.  A Python [str] is a sequence of code
    points; the engine only ever turns it into octets through UTF-8. *)

Abbreviation bytes := (list byte).
Abbreviation str := (list N).

(** The octet whose value is [n mod 256]. *)
Definition byte_of (n : N) : byte :=
  match Byte.of_N (n mod 256) with
  | Some b => b
  | None => x00
  end.

(** ** UTF-8, as [str.encode("utf-8")] and [bytes.decode("utf-8")] do it

    Both are strict: surrogates (U+D800..U+DFFF) cannot be encoded, and the
    decoder rejects stray continuation octets, overlong forms, surrogates,
    code points above U+10FFFF and truncated sequences. *)

Definition is_surrogate (c : N) : bool := (0xD800 <=? c) && (c <? 0xE000).

Definition utf8_encode_char (c : N) : option bytes :=
  if c <? 0x80 then Some [byte_of c]
  else if c <? 0x800 then
    Some [byte_of (0xC0 + c / 64); byte_of (0x80 + c mod 64)]
  else if c <? 0x10000 then
    if is_surrogate c then None
    else Some [byte_of (0xE0 + c / 4096);
               byte_of (0x80 + (c / 64) mod 64);
               byte_of (0x80 + c mod 64)]
  else if c <? 0x110000 then
    Some [byte_of (0xF0 + c / 262144);
          byte_of (0x80 + (c / 4096) mod 64);
          byte_of (0x80 + (c / 64) mod 64);
          byte_of (0x80 + c mod 64)]
  else None.

Fixpoint utf8_encode (s : str) : option bytes :=
  match s with
  | [] => Some []
  | c :: s' =>
      match utf8_encode_char c, utf8_encode s' with
      | Some b, Some bs => Some (b ++ bs)
      | _, _ => None
      end
  end.

Definition is_cont (b : byte) : bool :=
  (0x80 <=? Byte.to_N b) && (Byte.to_N b <? 0xC0).

Definition cont_bits (b : byte) : N := Byte.to_N b - 0x80.

Definition push (c : N) (r : option str) : option str :=
  match r with
  | Some s => Some (c :: s)
  | None => None
  end.

Fixpoint utf8_decode (bs : bytes) : option str :=
  match bs with
  | [] => Some []
  | b0 :: r0 =>
      let n0 := Byte.to_N b0 in
      if n0 <? 0x80 then push n0 (utf8_decode r0)
      else if n0 <? 0xC2 then None
      else if n0 <? 0xE0 then
        match r0 with
        | b1 :: r1 =>
            if is_cont b1
            then push ((n0 - 0xC0) * 64 + cont_bits b1) (utf8_decode r1)
            else None
        | _ => None
        end
      else if n0 <? 0xF0 then
        match r0 with
        | b1 :: b2 :: r2 =>
            let c := (n0 - 0xE0) * 4096 + cont_bits b1 * 64 + cont_bits b2 in
            if is_cont b1 && is_cont b2 && negb (c <? 0x800)
               && negb (is_surrogate c)
            then push c (utf8_decode r2)
            else None
        | _ => None
        end
      else if n0 <? 0xF5 then
        match r0 with
        | b1 :: b2 :: b3 :: r3 =>
            let c := (n0 - 0xF0) * 262144 + cont_bits b1 * 4096
                     + cont_bits b2 * 64 + cont_bits b3 in
            if is_cont b1 && is_cont b2 && is_cont b3
               && negb (c <? 0x10000) && (c <? 0x110000)
            then push c (utf8_decode r3)
            else None
        | _ => None
        end
      else None
  end.

(** ** Fixed-width little-endian integers *)

Fixpoint le_encode (w : nat) (n : N) : bytes :=
  match w with
  | O => []
  | S w' => byte_of n :: le_encode w' (n / 256)
  end.

Fixpoint le_decode (bs : bytes) : N :=
  match bs with
  | [] => 0
  | b :: r => Byte.to_N b + 256 * le_decode r
  end.

(** ** Exceptions

    The engine has no handlers of its own: whatever the codec or a file
    object raises leaves the method that was running.  [LoopFuel] belongs to
    the model only (see [load_loop]); no run of the engine raises it. *)

Inductive exn :=
| MalformedHeader     (* decode_header on fewer than HEADER_SIZE octets *)
| MalformedRecord     (* decode_kv on a short slice or on invalid text *)
| InvalidInput        (* encode_kv outside its domain *)
| UnicodeDecodeError  (* bytes.decode("utf-8") in _load_keydir *)
| ClosedFile          (* ValueError: I/O operation on closed file *)
| IOFailure           (* OSError out of write, flush or close *)
| ZeroDivisionError   (* only in write.py, line 28 *)
| LoopFuel.

(** What the specification calls [CorruptLog]: a header or record that
    cannot be decoded while the log is scanned. *)
Definition CorruptLog (e : exn) : Prop :=
  e = MalformedHeader \/ e = MalformedRecord \/ e = UnicodeDecodeError.

(** What the specification calls [IndexCorruption]: a decode failure in
    [get]. *)
Definition IndexCorruption (e : exn) : Prop :=
  e = MalformedHeader \/ e = MalformedRecord.

(** ** The record codec (module [format])

    Modelled from the spec: [format.py], from which [disk_store.py] imports
    [encode_kv], [decode_kv], [decode_header] and [HEADER_SIZE], is missing.
    The specification gives a fixed-width header of three unsigned fields
    (timestamp, key_length, value_length) in a fixed byte order, followed by
    the raw key and value octets, the lengths being those of the octet
    sequences.  It leaves the width of the timestamp and the byte order
    open; here all three fields are 32-bit little-endian. *)

Definition HEADER_SIZE : nat := 12.

Definition fits_u32 (n : N) : bool := n <? 2 ^ 32.

(** The header of a record: three 32-bit little-endian fields. *)
Definition header_bytes (timestamp ksz vsz : N) : bytes :=
  le_encode 4 timestamp ++ le_encode 4 ksz ++ le_encode 4 vsz.

(** Modelled from the spec: [encode(timestamp, key, value) -> (total_size,
    bytes)], "the fixed-width header followed by the raw key bytes and raw
    value bytes", defined on "valid inputs where lengths fit in the header's
    length fields". *)
Definition encode_kv (timestamp : N) (key value : str) : exn + (nat * bytes) :=
  match utf8_encode key, utf8_encode value with
  | Some kb, Some vb =>
      let ksz := N.of_nat (length kb) in
      let vsz := N.of_nat (length vb) in
      if fits_u32 timestamp && fits_u32 ksz && fits_u32 vsz
      then inr ((HEADER_SIZE + length (kb ++ vb))%nat,
                header_bytes timestamp ksz vsz ++ kb ++ vb)
      else inl InvalidInput
  | _, _ => inl InvalidInput
  end.

(** The triples the codec is defined on: key and value are text (they have
    a UTF-8 form) and the timestamp and both lengths fit in 32 bits. *)
Definition valid_triple (timestamp : N) (key value : str) : bool :=
  match utf8_encode key, utf8_encode value with
  | Some kb, Some vb =>
      fits_u32 timestamp && fits_u32 (N.of_nat (length kb))
      && fits_u32 (N.of_nat (length vb))
  | _, _ => false
  end.

(** Unicode scalar values: code points that are not surrogates. *)
Definition is_scalar (c : N) : bool := (c <? 0x110000) && negb (is_surrogate c).

Definition is_text (s : str) : bool := forallb is_scalar s.

(** Modelled from the spec: [decode_header], a "pure parse of the fixed-size
    header; fails with a MalformedHeader condition if fewer than HEADER_SIZE
    bytes are supplied". *)
Definition decode_header (data : bytes) : exn + (N * N * N) :=
  if (length data <? HEADER_SIZE)%nat then inl MalformedHeader
  else inr (le_decode (take 4 data),
            le_decode (take 4 (drop 4 data)),
            le_decode (take 4 (drop 8 data))).

(** Modelled from the spec: [decode_record], which "fails with
    MalformedRecord if the byte slice is shorter than HEADER_SIZE +
    key_length + value_length implied by its own header, or if the
    key/value bytes are not valid text". *)
Definition decode_kv (data : bytes) : exn + (N * str * str) :=
  match decode_header (take HEADER_SIZE data) with
  | inl _ => inl MalformedRecord
  | inr (timestamp, ksz, vsz) =>
      let body := drop HEADER_SIZE data in
      if N.of_nat (length body) <? ksz + vsz then inl MalformedRecord
      else
        match utf8_decode (take (N.to_nat ksz) body),
              utf8_decode (take (N.to_nat vsz) (drop (N.to_nat ksz) body)) with
        | Some key, Some value => inr (timestamp, key, value)
        | _, _ => inl MalformedRecord
        end
  end.

(** ** The store: the log file and the engine object

    [disk] is the content of the file the engine was opened on; a file that
    does not exist is created empty by [open(file_name, "ab")], so absent
    and empty are the same to the engine.  [fw], [fr] and [keydir] are the
    three attributes of the [DiskStorage] object.

    [fw] is a buffered writer: [write] puts octets in its buffer,
    [fw_buffer], and [flush] appends the buffer to the file.  When the disk
    refuses them, the octets that were not written stay in the buffer: they
    count in [tell] and go to the file with the next flush.  The read handle
    sees the file as it is on disk. *)

Record handle := Handle { pos : nat; closed : bool }.

Record Store := MkStore {
  disk : bytes;
  fw : handle;
  fr : handle;
  keydir : gmap str (nat * nat);
  fw_buffer : bytes
}.

(** A store whose write buffer is empty. *)
Abbreviation mkStore d w r kd := (MkStore d w r kd []).

Definition M (A : Type) : Type := Store -> (exn + A) * Store.

#[global] Instance M_ret : MRet M := fun A (a : A) s => (inr a, s).

#[global] Instance M_bind : MBind M := fun A B (k : A -> M B) (m : M A) s =>
  match m s with
  | (inr a, s') => k a s'
  | (inl e, s') => (inl e, s')
  end.

Definition raise {A} (e : exn) : M A := fun s => (inl e, s).

Definition lift {A} (r : exn + A) : M A :=
  match r with
  | inr a => mret a
  | inl e => raise e
  end.

(** What the environment decides when buffered octets are pushed to the
    disk: all of them are written; or the disk fails after [n] of them and
    the others stay in the buffer (a failure inside [flush]); or the disk
    fails after [n] of them, [m] of the others stay in the buffer and the
    rest is dropped (a failure inside a [write] too large for the buffer,
    which pushes octets itself). *)
Inductive outcome := Durable | Fails (n : nat) | Loses (n m : nat).

(** The octets that reach the disk, and the octets that stay behind. *)
Definition pushed (io : outcome) (stream : bytes) : bytes :=
  match io with
  | Durable => stream
  | Fails n | Loses n _ => take n stream
  end.

Definition kept (io : outcome) (stream : bytes) : bytes :=
  match io with
  | Durable => []
  | Fails n => drop n stream
  | Loses n m => take m (drop n stream)
  end.

(** [fw.tell()]: the position in the file plus the octets still buffered. *)
Definition fw_tell : M nat := fun s =>
  if closed (fw s) then (inl ClosedFile, s)
  else (inr (pos (fw s) + length (fw_buffer s))%nat, s).

(** [fw.write(data)].  The octets join the buffer.  A [write] that does not
    fit the buffer pushes octets to the disk itself; in [set] the [flush]
    that follows pushes all the same, and a failure in either leaves the
    method with the same exception, so every push is made in [fw_flush]. *)
Definition fw_write (data : bytes) : M unit := fun s =>
  if closed (fw s) then (inl ClosedFile, s)
  else (inr tt,
        MkStore (disk s) (fw s) (fr s) (keydir s) (fw_buffer s ++ data)).

(** [fw.flush()].  The file is opened for appending: the octets go to its
    end, wherever the handle stood, and the handle stands at the new end
    afterwards.  An empty buffer touches nothing. *)
Definition fw_flush (io : outcome) : M unit := fun s =>
  if closed (fw s) then (inl ClosedFile, s)
  else
    match fw_buffer s with
    | [] => (inr tt, s)
    | _ :: _ =>
        let d := disk s ++ pushed io (fw_buffer s) in
        (match io with Durable => inr tt | _ => inl IOFailure end,
         MkStore d (Handle (length d) false) (fr s) (keydir s)
           (kept io (fw_buffer s)))
    end.

(** [fw.close()]: nothing on a closed handle; otherwise a flush, after which
    the handle is closed and its buffer gone, also when the flush raised. *)
Definition fw_close (io : outcome) : M unit := fun s =>
  if closed (fw s) then (inr tt, s)
  else
    let '(r, s') := fw_flush io s in
    (r, MkStore (disk s') (Handle (pos (fw s')) true) (fr s') (keydir s') []).

Definition fr_close : M unit := fun s =>
  (inr tt,
   MkStore (disk s) (fw s) (Handle (pos (fr s)) true) (keydir s) (fw_buffer s)).

Definition fr_tell : M nat := fun s =>
  if closed (fr s) then (inl ClosedFile, s) else (inr (pos (fr s)), s).

(** [f.read(n)]: up to [n] octets from the current position, fewer only at
    the end of the file. *)
Definition fr_read (n : nat) : M bytes := fun s =>
  if closed (fr s) then (inl ClosedFile, s)
  else
    let chunk := take n (drop (pos (fr s)) (disk s)) in
    (inr chunk,
     MkStore (disk s) (fw s) (Handle (pos (fr s) + length chunk) false)
             (keydir s) (fw_buffer s)).

Definition fr_seek (offset : nat) : M unit := fun s =>
  if closed (fr s) then (inl ClosedFile, s)
  else (inr tt,
        MkStore (disk s) (fw s) (Handle offset false) (keydir s) (fw_buffer s)).

Definition get_keydir : M (gmap str (nat * nat)) := fun s => (inr (keydir s), s).

(** [self.keydir[key] = entry] *)
Definition keydir_setitem (key : str) (entry : nat * nat) : M unit := fun s =>
  (inr tt,
   MkStore (disk s) (fw s) (fr s) (<[key := entry]> (keydir s)) (fw_buffer s)).

(** ** The engine ([class DiskStorage]) *)

(** The [while header:] loop of [_load_keydir].  Every round consumes the
    non-empty header it was entered with, so the loop ends after at most as
    many rounds as the file has octets; [fuel] bounds the rounds. *)
Fixpoint load_loop (fuel : nat) (keydir : gmap str (nat * nat))
    (offset : nat) (header : bytes) (n_records : nat)
    : M (gmap str (nat * nat) * nat) :=
  match header with
  | [] => mret (keydir, n_records)
  | _ :: _ =>
      match fuel with
      | O => raise LoopFuel
      | S fuel' =>
          '(_, ksz, vsz) ← lift (decode_header header);
          kb ← fr_read (N.to_nat ksz);
          key ← lift (from_option inr (inl UnicodeDecodeError) (utf8_decode kb));
          _ ← fr_read (N.to_nat vsz);
          let keydir :=
            <[key := (offset, (HEADER_SIZE + N.to_nat ksz + N.to_nat vsz)%nat)]>
              keydir in
          offset ← fr_tell;
          header ← fr_read HEADER_SIZE;
          load_loop fuel' keydir offset header (S n_records)
      end
  end.

Definition _load_keydir : M (gmap str (nat * nat)) := fun s =>
  (offset ← fr_tell;
   header ← fr_read HEADER_SIZE;
   r ← load_loop (S (length (disk s))) ∅ offset header 0;
   mret (fst r)) s.

(** [DiskStorage(file_name)] on a file whose content is [d]: the object, or
    the exception that left the constructor. *)
Definition __init__ (d : bytes) : exn + Store :=
  let s := mkStore d (Handle (length d) false) (Handle 0 false) ∅ in
  match _load_keydir s with
  | (inr kd, s') => inr (MkStore (disk s') (fw s') (fr s') kd (fw_buffer s'))
  | (inl e, _) => inl e
  end.

(** [now] is what [int(time.time())] returns, [io] what happens when the
    buffer is pushed to the disk. *)
Definition set (now : N) (io : outcome) (key value : str) : M unit :=
  let timestamp := now in
  '(size, data) ← lift (encode_kv timestamp key value);
  offset ← fw_tell;
  keydir_setitem key (offset, size);;
  fw_write data;;
  fw_flush io.

Definition get (key : str) : M str :=
  kd ← get_keydir;
  match kd !! key with
  | None => mret []
  | Some (offset, size) =>
      fr_seek offset;;
      data ← fr_read size;
      '(_, _, value) ← lift (decode_kv data);
      mret value
  end.

(** [io] is what happens to the octets that [fw.close()] finds in the
    buffer.  When [fw.close()] raises, [fr.close()] is not reached. *)
Definition close (io : outcome) : M unit :=
  fw_close io;;
  fr_close.

Definition __setitem__ (now : N) (io : outcome) (key value : str) : M unit :=
  set now io key value.

Definition __getitem__ (item : str) : M str := get item.

(** ** Runs of the engine and logs of complete records *)

(** Both handles are open. *)
Definition live (s : Store) : Prop :=
  closed (fw s) = false /\ closed (fr s) = false.

(** The states the public API leads to: a constructor call on a file of any
    content, followed by calls of [set], [get] and [close] that return or
    raise, under any behaviour of the clock and of the disk. *)
Inductive reachable : Store -> Prop :=
| reach_init d s : __init__ d = inr s -> reachable s
| reach_set s now io key value :
    reachable s -> reachable (snd (set now io key value s))
| reach_get s key : reachable s -> reachable (snd (get key s))
| reach_close s io : reachable s -> reachable (snd (close io s)).



(** The log that holds the records [recs], oldest first. *)
Fixpoint log_bytes (recs : list (N * str * str)) : option bytes :=
  match recs with
  | [] => Some []
  | (ts, key, value) :: recs' =>
      match encode_kv ts key value, log_bytes recs' with
      | inr (_, data), Some d => Some (data ++ d)
      | _, _ => None
      end
  end.

(** A file made of complete records, as an engine whose writes all
    succeeded leaves it. *)
Definition engine_written (d : bytes) : Prop :=
  exists recs, log_bytes recs = Some d.

(** The states of a run without failures of the disk: a constructor call on
    a log of complete records, followed by calls of [set], whose appends
    succeed, and of [get]. *)
Inductive steady : Store -> Prop :=
| steady_init d s : engine_written d -> __init__ d = inr s -> steady s
| steady_set s now key value :
    steady s -> steady (snd (set now Durable key value s))
| steady_get s key : steady s -> steady (snd (get key s)).

(** The KeyDir that indexing the records [recs] one after the other, the
    first of them at [offset], adds to [kd]: what [set] maintains. *)
Fixpoint log_keydir (offset : nat) (recs : list (N * str * str))
    (kd : gmap str (nat * nat)) : gmap str (nat * nat) :=
  match recs with
  | [] => kd
  | (ts, key, value) :: recs' =>
      match encode_kv ts key value with
      | inr (size, _) =>
          log_keydir (offset + size) recs' (<[key := (offset, size)]> kd)
      | inl _ => kd
      end
  end.

(** The KeyDir agrees with the log: the file holds the records [recs], the
    KeyDir is their index, and the append handle stands at the end. *)
Definition consistent (recs : list (N * str * str)) (s : Store) : Prop :=
  log_bytes recs = Some (disk s) /\
  keydir s = log_keydir 0 recs ∅ /\
  pos (fw s) = length (disk s).

(** Nothing is waiting in the buffer of the append handle. *)
Definition flushed (s : Store) : Prop := fw_buffer s = [].

(** The entry of [key] points at a record of the log that holds [key] and
    [value]. *)
Definition stored (s : Store) (key value : str) : Prop :=
  exists offset size ts,
    keydir s !! key = Some (offset, size) /\
    decode_kv (take size (drop offset (disk s))) = inr (ts, key, value).

(** One reading of the position and of a header, then the loop: how
    [_load_keydir] starts and how every round of its loop ends. *)
Definition scan_from (fuel : nat) (keydir : gmap str (nat * nat))
    (n_records : nat) : M (gmap str (nat * nat) * nat) :=
  offset ← fr_tell;
  header ← fr_read HEADER_SIZE;
  load_loop fuel keydir offset header n_records.

(** What a method may change besides the position of the read handle:
    nothing. *)
Definition frame (s s' : Store) : Prop :=
  disk s' = disk s /\ fw s' = fw s /\ keydir s' = keydir s /\
  closed (fr s') = closed (fr s) /\ fw_buffer s' = fw_buffer s.

Definition preserves {A} (m : M A) : Prop := forall s, frame s (snd (m s)).

(** ** A concrete run

    The scenario of the specification: an engine opened on an empty file,
    [set("a", "b")], then [set("a", "c")]. *)

Definition str_a : str := [97].
Definition str_b : str := [98].
Definition str_c : str := [99].

Definition fresh : Store := mkStore [] (Handle 0 false) (Handle 0 false) ∅.

Definition after_ab : Store := snd (set 1700000000 Durable str_a str_b fresh).

Definition after_ac : Store := snd (set 1700000001 Durable str_a str_c after_ab).

(** The engine after [set("a", "")] on an empty file. *)
Definition after_a_empty : Store := snd (set 1700000000 Durable str_a [] fresh).

(** The engine after a [set("a", "b")] on an empty file whose append failed
    before any octet reached the disk. *)
Definition after_failed_ab : Store :=
  snd (set 1700000000 (Fails 0) str_a str_b fresh).

(** The engine after that failed [set("a", "b")] and a [set("c", "d")] whose
    flush succeeds. *)
Definition after_failed_then_cd : Store :=
  snd (set 1700000001 Durable str_c [100] after_failed_ab).

(** The log that holds the one record ("a", "b"), and the log that holds
    the one record ("ab", "c"). *)
Definition log_ab : bytes := disk after_ab.

Definition log_abc : bytes :=
  disk (snd (set 1700000000 Durable [97; 98] str_c fresh)).

(** ** Further notions used by the properties of the engine *)

(** Every entry of [kd] starts at a place of the file [d] where a whole
    header fits, and is at least as long as a header. *)
Definition entries_in (d : bytes) (kd : gmap str (nat * nat)) : Prop :=
  forall key offset size,
    kd !! key = Some (offset, size) ->
    (offset + HEADER_SIZE <= length d)%nat /\ (HEADER_SIZE <= size)%nat.

(** Any number of calls of [set], [get] and [close], one after the other,
    whether they return or raise. *)
Inductive run_from (s : Store) : Store -> Prop :=
| run_done : run_from s s
| run_set s' now io key value :
    run_from s s' -> run_from s (snd (set now io key value s'))
| run_get s' key : run_from s s' -> run_from s (snd (get key s'))
| run_close s' io : run_from s s' -> run_from s (snd (close io s')).

(** A record as it lies in the file, with key and value as octets: the
    header, then the key, then the value. *)
Definition raw_record (ts : N) (kb vb : bytes) : bytes :=
  header_bytes ts (N.of_nat (length kb)) (N.of_nat (length vb)) ++ kb ++ vb.

Fixpoint raw_log (recs : list (N * bytes * bytes)) : bytes :=
  match recs with
  | [] => []
  | (ts, kb, vb) :: recs' => raw_record ts kb vb ++ raw_log recs'
  end.

(** The fields of the header fit in 32 bits and the key is UTF-8; nothing
    is asked of the value. *)
Definition raw_ok (r : N * bytes * bytes) : bool :=
  let '(ts, kb, vb) := r in
  fits_u32 ts && fits_u32 (N.of_nat (length kb))
  && fits_u32 (N.of_nat (length vb))
  && match utf8_decode kb with Some _ => true | None => false end.

(** The index of the raw records [recs], the first of them at [offset]. *)
Fixpoint raw_keydir (offset : nat) (recs : list (N * bytes * bytes))
    (kd : gmap str (nat * nat)) : gmap str (nat * nat) :=
  match recs with
  | [] => kd
  | (ts, kb, vb) :: recs' =>
      let size := (HEADER_SIZE + length kb + length vb)%nat in
      match utf8_decode kb with
      | Some key => raw_keydir (offset + size) recs' (<[key := (offset, size)]> kd)
      | None => kd
      end
  end.

(** The keys of the records [recs], in the order of the log. *)
Definition record_keys (recs : list (N * str * str)) : list str :=
  map (fun r : N * str * str => snd (fst r)) recs.

(** ** The benchmark scripts ([benchmark/write.py], [benchmark/read.py]) *)

(** The lower-case hexadecimal digit of [d], as a code point. *)
Definition hex_digit (d : N) : N := if d <? 10 then 48 + d else 87 + d.

(** The hexadecimal digits of [n], least significant first, none for 0. *)
Fixpoint hex_rev (fuel : nat) (n : N) : str :=
  match fuel with
  | O => []
  | S fuel' =>
      if n =? 0 then [] else hex_digit (n mod 16) :: hex_rev fuel' (n / 16)
  end.

(** [f"{n:x}"] for [n >= 0]: no prefix, "0" for zero.  A number has no more
    hexadecimal digits than binary ones, which bounds the recursion. *)
Definition format_x (n : N) : str :=
  if n =? 0 then [48] else rev (hex_rev (N.to_nat (N.size n)) n).

(** [s.zfill(k)] for a string without sign: zeros on the left up to the
    width [k]. *)
Definition zfill (k : nat) (s : str) : str := replicate (k - length s) 48 ++ s.

(** [random_str(k)], [r] being what [random.randint(0, 16 ** k - 1)]
    returned. *)
Definition random_str (k : nat) (r : N) : str := zfill k (format_x r).

(** The number a string of hexadecimal digits stands for. *)
Definition hex_value_digit (c : N) : N := if c <? 58 then c - 48 else c - 87.

Definition hex_value (s : str) : N :=
  fold_left (fun acc c => 16 * acc + hex_value_digit c) s 0.

Definition is_hex (c : N) : bool :=
  ((48 <=? c) && (c <? 58)) || ((97 <=? c) && (c <? 103)).

(** The first rounds of the [while True:] loop of [write.py], one for each
    element of [env]: the clock reading, the fate of the append, the two
    random draws of the round, and what line 28 does if the round is one in
    which the throughput message is due.  That line computes
    [int(n_records / 1e3 / (time.time() - t))] in floating point and raises
    [ZeroDivisionError] when the clock has not moved since the start;
    neither floating point nor the clock is modelled, so its outcome is
    given.  The result is [n_records]; a round that raises ends the
    script. *)
Fixpoint write_rounds (env : list (N * outcome * N * N * (exn + unit)))
    (n_records : N) : M N :=
  match env with
  | [] => mret n_records
  | (now, io, r1, r2, throughput) :: env' =>
      let key := random_str 2 r1 in
      let value := random_str 2 r2 in
      __setitem__ now io key value;;
      let n_records := n_records + 1 in
      (if n_records mod 1000000 =? 0 then lift throughput else mret tt);;
      write_rounds env' n_records
  end.



(** A round of [write.py] in which nothing goes wrong: the clock fits the
    header, the append reaches the disk, the draws are in the range of
    [random.randint(0, 16 ** 2 - 1)], and the throughput message, were it
    due, would be computed without error. *)
Definition round_ok (e : N * outcome * N * N * (exn + unit)) : bool :=
  let '(now, io, r1, r2, throughput) := e in
  fits_u32 now
  && match io with Durable => true | _ => false end
  && (r1 <? 256) && (r2 <? 256)
  && match throughput with inr _ => true | inl _ => false end.

(** The 256 strings [random_str()] can return. *)
Definition hex_keys : gset str :=
  list_to_set ((fun i => random_str 2 (N.of_nat i)) <$> seq 0 256).

(** * Properties *)

Lemma to_N_byte_of n : Byte.to_N (byte_of n) = n mod 256.
Proof.
  unfold byte_of.
  destruct (Byte.of_N (n mod 256)) as [b|] eqn:E.
  - now apply Byte.to_of_N.
  - apply Byte.of_N_None_iff in E.
    pose proof (N.mod_upper_bound n 256). lia.
Qed.

Lemma to_N_byte_of_small n : n < 256 -> Byte.to_N (byte_of n) = n.
Proof. intros H. rewrite to_N_byte_of. now apply N.mod_small. Qed.

Lemma is_cont_byte_of n : n < 64 -> is_cont (byte_of (0x80 + n)) = true.
Proof.
  intros H. unfold is_cont. rewrite to_N_byte_of_small by lia.
  apply andb_true_intro; split; [apply N.leb_le | apply N.ltb_lt]; lia.
Qed.

Lemma cont_bits_byte_of n : n < 64 -> cont_bits (byte_of (0x80 + n)) = n.
Proof. intros H. unfold cont_bits. rewrite to_N_byte_of_small by lia. lia. Qed.

Lemma digits64 c :
  exists q r, c / 64 = q /\ c mod 64 = r /\ c = 64 * q + r /\ r < 64.
Proof.
  exists (c / 64), (c mod 64). repeat split.
  - apply N.div_mod'.
  - apply N.mod_upper_bound. lia.
Qed.

Lemma div4096 c : c / 4096 = c / 64 / 64.
Proof. now rewrite N.Div0.div_div. Qed.

Lemma div262144 c : c / 262144 = c / 64 / 64 / 64.
Proof. now rewrite !N.Div0.div_div. Qed.

Ltac ltb_cases :=
  repeat match goal with
    | |- context [N.ltb ?a ?b] => destruct (N.ltb_spec a b); try lia
    | |- context [N.leb ?a ?b] => destruct (N.leb_spec a b); try lia
    end.

Lemma utf8_char_roundtrip c b rest :
  utf8_encode_char c = Some b ->
  utf8_decode (b ++ rest) = push c (utf8_decode rest).
Proof.
  unfold utf8_encode_char, is_surrogate.
  rewrite div262144, div4096.
  destruct (digits64 c) as (q1 & r0 & -> & -> & E0 & B0).
  destruct (digits64 q1) as (q2 & r1 & -> & -> & E1 & B1).
  destruct (digits64 q2) as (q3 & r2 & -> & -> & E2 & B2).
  destruct (N.ltb_spec c 0x80) as [H1|H1].
  { intros [= <-]. cbn [app utf8_decode].
    rewrite to_N_byte_of_small by lia. ltb_cases. reflexivity. }
  destruct (N.ltb_spec c 0x800) as [H2|H2].
  { intros [= <-]. cbn [app utf8_decode].
    rewrite to_N_byte_of_small by lia.
    rewrite is_cont_byte_of, cont_bits_byte_of by assumption.
    ltb_cases. f_equal. lia. }
  destruct (N.ltb_spec c 0x10000) as [H3|H3].
  { destruct ((0xD800 <=? c) && (c <? 0xE000)) eqn:Es; [discriminate|].
    intros [= <-]. cbn [app utf8_decode].
    rewrite to_N_byte_of_small by lia.
    rewrite !is_cont_byte_of, !cont_bits_byte_of by assumption.
    replace ((0xE0 + q2 - 0xE0) * 4096 + r1 * 64 + r0) with c by lia.
    unfold is_surrogate. rewrite Es. cbn [andb negb].
    ltb_cases. reflexivity. }
  destruct (N.ltb_spec c 0x110000) as [H4|H4]; [|discriminate].
  intros [= <-]. cbn [app utf8_decode].
  rewrite to_N_byte_of_small by lia.
  rewrite !is_cont_byte_of, !cont_bits_byte_of by assumption.
  replace ((0xF0 + q3 - 0xF0) * 262144 + r2 * 4096 + r1 * 64 + r0)
    with c by lia.
  ltb_cases. reflexivity.
Qed.

Lemma utf8_roundtrip s bs : utf8_encode s = Some bs -> utf8_decode bs = Some s.
Proof.
  revert bs. induction s as [|c s IH]; intros bs; cbn [utf8_encode].
  - now intros [= <-].
  - destruct (utf8_encode_char c) as [b|] eqn:Ec; [|discriminate].
    destruct (utf8_encode s) as [bs'|]; [|discriminate].
    intros [= <-]. rewrite (utf8_char_roundtrip _ _ _ Ec), (IH _ eq_refl).
    reflexivity.
Qed.

(** ** Little-endian fields and the header *)

Lemma length_le_encode w n : length (le_encode w n) = w.
Proof. revert n. induction w as [|w IH]; intros n; cbn; [|rewrite IH]; reflexivity. Qed.

Lemma le_roundtrip w n : le_decode (le_encode w n) = n mod 256 ^ N.of_nat w.
Proof.
  revert n. induction w as [|w IH]; intros n.
  - cbn. now rewrite N.mod_1_r.
  - cbn [le_encode le_decode]. rewrite to_N_byte_of, IH.
    rewrite Nat2N.inj_succ, N.pow_succ_r'.
    now rewrite N.Div0.mod_mul_r.
Qed.

Lemma u32_roundtrip n : fits_u32 n = true -> le_decode (le_encode 4 n) = n.
Proof.
  unfold fits_u32. intros H%N.ltb_lt.
  rewrite le_roundtrip. now apply N.mod_small.
Qed.

Lemma decode_header_encode a b c :
  fits_u32 a = true -> fits_u32 b = true -> fits_u32 c = true ->
  decode_header (header_bytes a b c) = inr (a, b, c).
Proof.
  intros Ha Hb Hc. unfold decode_header, header_bytes.
  rewrite !length_app, !length_le_encode. cbn [Nat.ltb Nat.leb Nat.add HEADER_SIZE].
  rewrite (take_app_length' (le_encode 4 a)) by now rewrite length_le_encode.
  rewrite (drop_app_length' (le_encode 4 a)) by now rewrite length_le_encode.
  rewrite (take_app_length' (le_encode 4 b)) by now rewrite length_le_encode.
  replace 8%nat with (length (le_encode 4 a ++ le_encode 4 b))
    by now rewrite length_app, !length_le_encode.
  rewrite app_assoc, drop_app_length.
  rewrite take_ge by now rewrite length_le_encode.
  now rewrite !u32_roundtrip.
Qed.

Lemma length_header_bytes a b c : length (header_bytes a b c) = HEADER_SIZE.
Proof. unfold header_bytes. now rewrite !length_app, !length_le_encode. Qed.

(** ** The codec *)

Lemma utf8_encode_char_scalar c :
  is_scalar c = true -> exists b, utf8_encode_char c = Some b.
Proof.
  unfold is_scalar, utf8_encode_char.
  intros [H1 H2%negb_true_iff]%andb_true_iff. rewrite H1, H2.
  repeat match goal with |- context [if ?b then _ else _] => destruct b end;
    eauto.
Qed.

Lemma utf8_encode_text s : is_text s = true -> exists bs, utf8_encode s = Some bs.
Proof.
  induction s as [|c s IH]; cbn; [eauto|].
  intros [Hc Hs]%andb_true_iff.
  destruct (utf8_encode_char_scalar c Hc) as [b ->].
  destruct (IH Hs) as [bs ->]. eauto.
Qed.

Lemma encode_kv_inv ts key value size data :
  encode_kv ts key value = inr (size, data) ->
  exists kb vb,
    utf8_encode key = Some kb /\ utf8_encode value = Some vb /\
    fits_u32 ts = true /\ fits_u32 (N.of_nat (length kb)) = true /\
    fits_u32 (N.of_nat (length vb)) = true /\
    size = (HEADER_SIZE + length kb + length vb)%nat /\
    data = header_bytes ts (N.of_nat (length kb)) (N.of_nat (length vb))
           ++ kb ++ vb.
Proof.
  unfold encode_kv.
  destruct (utf8_encode key) as [kb|]; [|discriminate].
  destruct (utf8_encode value) as [vb|]; [|discriminate].
  destruct (fits_u32 ts) eqn:E1; [|discriminate].
  destruct (fits_u32 (N.of_nat (length kb))) eqn:E2; [|discriminate].
  destruct (fits_u32 (N.of_nat (length vb))) eqn:E3; [|discriminate].
  cbn [andb]. intros [= <- <-]. exists kb, vb. rewrite length_app.
  repeat split; auto.
Qed.

Lemma encode_kv_valid ts key value :
  valid_triple ts key value = true ->
  exists size data, encode_kv ts key value = inr (size, data).
Proof.
  unfold valid_triple, encode_kv.
  destruct (utf8_encode key) as [kb|]; [|discriminate].
  destruct (utf8_encode value) as [vb|]; [|discriminate].
  intros ->. eauto.
Qed.

Lemma encode_kv_length ts key value size data :
  encode_kv ts key value = inr (size, data) -> length data = size.
Proof.
  intros (kb & vb & _ & _ & _ & _ & _ & -> & ->)%encode_kv_inv.
  rewrite !length_app, length_header_bytes. lia.
Qed.

Lemma decode_kv_record ts kb vb key value :
  fits_u32 ts = true -> fits_u32 (N.of_nat (length kb)) = true ->
  fits_u32 (N.of_nat (length vb)) = true ->
  utf8_decode kb = Some key -> utf8_decode vb = Some value ->
  decode_kv (header_bytes ts (N.of_nat (length kb)) (N.of_nat (length vb))
             ++ kb ++ vb) = inr (ts, key, value).
Proof.
  intros Ht Hk Hv Dk Dv. unfold decode_kv.
  rewrite take_app_length' by now rewrite length_header_bytes.
  rewrite decode_header_encode by assumption.
  rewrite drop_app_length' by now rewrite length_header_bytes.
  rewrite length_app.
  destruct (N.ltb_spec (N.of_nat (length kb + length vb))
              (N.of_nat (length kb) + N.of_nat (length vb))); [lia|].
  rewrite !Nat2N.id, take_app_length, drop_app_length.
  rewrite take_ge by lia. now rewrite Dk, Dv.
Qed.

Lemma decode_encode_kv ts key value size data :
  encode_kv ts key value = inr (size, data) ->
  decode_kv data = inr (ts, key, value).
Proof.
  intros (kb & vb & Ek & Ev & Ht & Hk & Hv & _ & ->)%encode_kv_inv.
  apply decode_kv_record; auto using utf8_roundtrip.
Qed.

(** C8. Round trip of the codec: on every valid triple (text key and value,
    timestamp and lengths within the 32-bit header fields) [encode_kv]
    produces a record, of the size it reports, and [decode_kv] of that record
    is the triple again. *)
Theorem codec_round_trip ts key value :
  valid_triple ts key value = true ->
  exists size data,
    encode_kv ts key value = inr (size, data) /\
    length data = size /\
    decode_kv data = inr (ts, key, value).
Proof.
  intros Hv. destruct (encode_kv_valid _ _ _ Hv) as (size & data & E).
  exists size, data. eauto using encode_kv_length, decode_encode_kv.
Qed.

Lemma codec_round_trip_witness :
  valid_triple 1700000000 [0x6B; 0xE9] [0x20AC; 0x1F600] = true /\
  exists size data,
    encode_kv 1700000000 [0x6B; 0xE9] [0x20AC; 0x1F600] = inr (size, data) /\
    length data = size /\
    decode_kv data = inr (1700000000, [0x6B; 0xE9], [0x20AC; 0x1F600]).
Proof.
  split; [reflexivity|].
  apply (codec_round_trip 1700000000 [0x6B; 0xE9] [0x20AC; 0x1F600]).
  reflexivity.
Defined.

(** ** Symbolic execution of the methods *)

Lemma bind_run {A B} (m : M A) (k : A -> M B) s :
  (m ≫= k) s =
  match m s with
  | (inr a, s') => k a s'
  | (inl e, s') => (inl e, s')
  end.
Proof. reflexivity. Qed.

Lemma encode_kv_nonempty ts key value size data (buffer : bytes) :
  encode_kv ts key value = inr (size, data) -> buffer ++ data <> [].
Proof.
  intros He H. apply (f_equal length) in H.
  rewrite length_app, (encode_kv_length _ _ _ _ _ He) in H.
  apply encode_kv_inv in He as (kb & vb & _ & _ & _ & _ & _ & -> & _).
  unfold HEADER_SIZE in H. cbn [length] in H. lia.
Qed.

Lemma set_run now io key value s :
  set now io key value s =
  match encode_kv now key value with
  | inl e => (inl e, s)
  | inr (size, data) =>
      if closed (fw s) then (inl ClosedFile, s)
      else
        let kd := <[key := ((pos (fw s) + length (fw_buffer s))%nat, size)]>
                    (keydir s) in
        let stream := fw_buffer s ++ data in
        let d := disk s ++ pushed io stream in
        (match io with Durable => inr tt | _ => inl IOFailure end,
         MkStore d (Handle (length d) false) (fr s) kd (kept io stream))
  end.
Proof.
  unfold set. rewrite bind_run.
  destruct (encode_kv now key value) as [e|[size data]] eqn:He; [reflexivity|].
  cbn [lift]. unfold mret, M_ret. rewrite bind_run. unfold fw_tell.
  destruct (closed (fw s)) eqn:Ec; [reflexivity|].
  rewrite bind_run. unfold keydir_setitem.
  rewrite bind_run. unfold fw_write at 1. cbn [fw closed]. rewrite Ec.
  unfold fw_flush. cbn [fw closed fw_buffer disk fr keydir]. rewrite Ec.
  pose proof (encode_kv_nonempty _ _ _ _ _ (fw_buffer s) He) as Hne.
  destruct (fw_buffer s ++ data) as [|b stream]; [contradiction|].
  destruct io; reflexivity.
Qed.

Lemma get_run key s :
  get key s =
  match keydir s !! key with
  | None => (inr [], s)
  | Some (offset, size) =>
      if closed (fr s) then (inl ClosedFile, s)
      else
        let data := take size (drop offset (disk s)) in
        let s' := MkStore (disk s) (fw s)
                    (Handle (offset + length data) false) (keydir s)
                    (fw_buffer s) in
        match decode_kv data with
        | inr (_, _, value) => (inr value, s')
        | inl e => (inl e, s')
        end
  end.
Proof.
  unfold get. rewrite bind_run. unfold get_keydir.
  destruct (keydir s !! key) as [[offset size]|]; [|reflexivity].
  rewrite bind_run. unfold fr_seek.
  destruct (closed (fr s)) eqn:Ec; [reflexivity|].
  rewrite bind_run. unfold fr_read. cbn.
  destruct (decode_kv (take size (drop offset (disk s)))) as [e|[[ts k] v]];
    reflexivity.
Qed.

(** [close], case by case: on a closed append handle only the read handle
    is closed; otherwise the buffer is pushed, the append handle is closed,
    and the read handle is closed if the push raised nothing. *)
Lemma close_run io s :
  close io s =
  if closed (fw s)
  then (inr tt, MkStore (disk s) (fw s) (Handle (pos (fr s)) true) (keydir s)
                  (fw_buffer s))
  else
    match fw_buffer s with
    | [] => (inr tt, MkStore (disk s) (Handle (pos (fw s)) true)
                       (Handle (pos (fr s)) true) (keydir s) [])
    | _ :: _ =>
        let d := disk s ++ pushed io (fw_buffer s) in
        match io with
        | Durable =>
            (inr tt, MkStore d (Handle (length d) true)
                       (Handle (pos (fr s)) true) (keydir s) [])
        | _ =>
            (inl IOFailure, MkStore d (Handle (length d) true) (fr s)
                              (keydir s) [])
        end
    end.
Proof.
  unfold close. rewrite bind_run. unfold fw_close, fw_flush, fr_close.
  destruct (closed (fw s)) eqn:Ec; [reflexivity|].
  destruct (fw_buffer s) as [|b stream]; [reflexivity|].
  destruct io; reflexivity.
Qed.

(** ** What the load scan leaves alone *)

Lemma frame_refl s : frame s s.
Proof. now repeat split. Qed.

Lemma frame_trans s1 s2 s3 : frame s1 s2 -> frame s2 s3 -> frame s1 s3.
Proof.
  intros (D1 & W1 & K1 & C1 & B1) (D2 & W2 & K2 & C2 & B2).
  repeat split; congruence.
Qed.

Lemma preserves_bind {A B} (m : M A) (k : A -> M B) :
  preserves m -> (forall a, preserves (k a)) -> preserves (m ≫= k).
Proof.
  intros Hm Hk s. rewrite bind_run. specialize (Hm s).
  destruct (m s) as [[e|a] s']; cbn in *; [assumption|].
  eapply frame_trans; [eassumption | apply Hk].
Qed.

Lemma preserves_ret {A} (a : A) : preserves (mret a).
Proof. intros s. apply frame_refl. Qed.

Lemma preserves_lift {A} (r : exn + A) : preserves (lift r).
Proof. intros s. destruct r; apply frame_refl. Qed.

Lemma preserves_fr_tell : preserves fr_tell.
Proof. intros s. unfold fr_tell. destruct (closed (fr s)); apply frame_refl. Qed.

Lemma preserves_fr_read n : preserves (fr_read n).
Proof.
  intros s. unfold fr_read.
  destruct (closed (fr s)) eqn:E; [apply frame_refl|].
  now repeat split.
Qed.

Create HintDb frame.

#[local] Hint Resolve preserves_ret preserves_lift preserves_fr_tell
  preserves_fr_read : frame.

Lemma preserves_load_loop fuel kd offset header n :
  preserves (load_loop fuel kd offset header n).
Proof.
  revert kd offset header n.
  induction fuel as [|fuel IH]; intros kd offset [|b header] n; cbn [load_loop];
    try apply preserves_ret; try (intros s; apply frame_refl).
  apply preserves_bind; [auto with frame|]. intros [[ts ksz] vsz].
  repeat (apply preserves_bind; [auto with frame|]; intros ?).
  apply IH.
Qed.

Lemma preserves_load_keydir : preserves _load_keydir.
Proof.
  intros s. unfold _load_keydir.
  apply (preserves_bind fr_tell); [auto with frame|]. intros offset.
  apply preserves_bind; [auto with frame|]. intros header.
  apply preserves_bind; [apply preserves_load_loop|]. intros r.
  apply preserves_ret.
Qed.

Lemma init_frame d s :
  __init__ d = inr s ->
  disk s = d /\ fw s = Handle (length d) false /\ closed (fr s) = false /\
  fw_buffer s = [].
Proof.
  unfold __init__.
  pose proof (preserves_load_keydir
                (mkStore d (Handle (length d) false) (Handle 0 false) ∅))
    as (D & W & _ & C & B).
  destruct (_load_keydir _) as [[e|kd] s']; [discriminate|].
  intros [= <-]. cbn in *. auto.
Qed.

(** In every reachable state the append handle stands at the end of the
    file, and the read handle is open as long as the append handle is. *)
Lemma reachable_inv s :
  reachable s ->
  pos (fw s) = length (disk s) /\
  (closed (fw s) = false -> closed (fr s) = false).
Proof.
  induction 1 as [d s Hi|s now io key value _ [IH1 IH2]|s key _ [IH1 IH2]
                 |s io _ [IH1 IH2]].
  - apply init_frame in Hi as (-> & -> & -> & _). now split.
  - rewrite set_run.
    destruct (encode_kv now key value) as [e|[size data]]; [now split|].
    destruct (closed (fw s)) eqn:Ec; [cbn; split; congruence|].
    cbn. split; [reflexivity | auto].
  - rewrite get_run.
    destruct (keydir s !! key) as [[offset size]|]; [|now split].
    destruct (closed (fr s)) eqn:Ec;
      [cbn [snd]; split; [exact IH1|]; intros Hf; specialize (IH2 Hf);
       congruence|].
    cbn zeta.
    destruct (decode_kv _) as [e|[[ts k] v]]; cbn; split; auto.
  - rewrite close_run.
    destruct (closed (fw s)) eqn:Ec; [cbn; split; congruence|].
    destruct (fw_buffer s) as [|b stream]; [cbn; split; congruence|].
    destruct io; cbn; split; congruence.
Qed.

(** ** Writing and reading back *)

Lemma set_returns now io key value s s' :
  set now io key value s = (inr tt, s') ->
  exists size data,
    encode_kv now key value = inr (size, data) /\
    closed (fw s) = false /\ io = Durable /\
    s' = mkStore (disk s ++ fw_buffer s ++ data)
           (Handle (length (disk s ++ fw_buffer s ++ data)) false) (fr s)
           (<[key := ((pos (fw s) + length (fw_buffer s))%nat, size)]>
              (keydir s)).
Proof.
  rewrite set_run.
  destruct (encode_kv now key value) as [e|[size data]]; [discriminate|].
  destruct (closed (fw s)); [discriminate|].
  destruct io; [|discriminate..].
  intros [= <-]. eauto 6.
Qed.

Lemma read_appended (d data : bytes) size :
  length data = size -> take size (drop (length d) (d ++ data)) = data.
Proof. intros <-. rewrite drop_app_length. now apply take_ge. Qed.

Lemma read_behind_buffer (d buffer data : bytes) size :
  length data = size ->
  take size (drop (length d + length buffer) (d ++ buffer ++ data)) = data.
Proof.
  intros H. rewrite <- length_app, app_assoc. now apply read_appended.
Qed.

Lemma set_then_get now io key value s s' :
  reachable s ->
  set now io key value s = (inr tt, s') ->
  fst (get key s') = inr value.
Proof.
  intros [Hpos Hcl]%reachable_inv
         (size & data & He & Hw & _ & ->)%set_returns.
  rewrite get_run. cbn [keydir disk fr].
  rewrite lookup_insert_eq, (Hcl Hw), Hpos. cbn zeta.
  rewrite (read_behind_buffer _ _ _ _ (encode_kv_length _ _ _ _ _ He)).
  now rewrite (decode_encode_kv _ _ _ _ _ He).
Qed.

Lemma init_empty : __init__ [] = inr fresh.
Proof. reflexivity. Qed.

Lemma reachable_fresh : reachable fresh.
Proof. apply (reach_init []). reflexivity. Qed.

(** C1. Write-then-read: in every state the API leads to, a call of
    [set(key, value)] that returns is followed by a [get(key)] that returns
    exactly [value]. *)
Theorem write_then_read now io key value s s' :
  reachable s ->
  set now io key value s = (inr tt, s') ->
  fst (get key s') = inr value.
Proof. apply set_then_get. Qed.

Lemma write_then_read_witness :
  reachable fresh /\
  set 1700000000 Durable str_a str_b fresh = (inr tt, after_ab) /\
  fst (get str_a after_ab) = inr str_b.
Proof.
  assert (R : reachable fresh) by (apply (reach_init []); reflexivity).
  assert (E : set 1700000000 Durable str_a str_b fresh = (inr tt, after_ab))
    by reflexivity.
  split; [exact R|]. split; [exact E|].
  exact (write_then_read 1700000000 Durable str_a str_b fresh after_ab R E).
Defined.

(** C3. Last write wins: two calls [set(key, v1)], [set(key, v2)] that
    return, one after the other, are followed by a [get(key)] that returns
    [v2]. *)
Theorem last_write_wins now1 now2 io1 io2 key v1 v2 s s1 s2 :
  reachable s ->
  set now1 io1 key v1 s = (inr tt, s1) ->
  set now2 io2 key v2 s1 = (inr tt, s2) ->
  fst (get key s2) = inr v2.
Proof.
  intros R E1 E2. apply (set_then_get now2 io2 key v2 s1); [|exact E2].
  replace s1 with (snd (set now1 io1 key v1 s)) by now rewrite E1.
  now apply reach_set.
Qed.

Lemma last_write_wins_witness :
  reachable fresh /\
  set 1700000000 Durable str_a str_b fresh = (inr tt, after_ab) /\
  set 1700000001 Durable str_a str_c after_ab = (inr tt, after_ac) /\
  fst (get str_a after_ac) = inr str_c.
Proof.
  assert (R : reachable fresh) by (apply (reach_init []); reflexivity).
  assert (E1 : set 1700000000 Durable str_a str_b fresh = (inr tt, after_ab))
    by reflexivity.
  assert (E2 : set 1700000001 Durable str_a str_c after_ab
               = (inr tt, after_ac)) by reflexivity.
  repeat (split; [assumption|]).
  exact (last_write_wins 1700000000 1700000001 Durable Durable str_a str_b
           str_c fresh after_ab after_ac R E1 E2).
Defined.

(** C7, as the code has it.  After a [set(key, value)] that returns, the
    KeyDir is the old one with the entry of [key] replaced by (offset, size).
    [offset] is what [fw.tell()] returned: the length of the log before the
    append plus the number of octets of earlier, failed appends that still
    wait in the buffer of the append handle, hence the length of the log
    when nothing waits there.  [size] is [HEADER_SIZE] plus the numbers of
    octets of the encoded key and value.  The record occupies exactly the
    [size] octets from [offset] of the log after the [set], which ends
    there.  The entry replaces the one [key] had: no other key changes and a
    key already present adds no entry. *)
Theorem set_indexes_record now io key value s s' :
  reachable s ->
  set now io key value s = (inr tt, s') ->
  exists kb vb,
    utf8_encode key = Some kb /\ utf8_encode value = Some vb /\
    let offset := (length (disk s) + length (fw_buffer s))%nat in
    let size := (HEADER_SIZE + length kb + length vb)%nat in
    keydir s' !! key = Some (offset, size) /\
    keydir s' = <[key := (offset, size)]> (keydir s) /\
    (forall k, k <> key -> keydir s' !! k = keydir s !! k) /\
    (is_Some (keydir s !! key) -> base.size (keydir s') = base.size (keydir s)) /\
    (fw_buffer s = [] -> offset = length (disk s)) /\
    length (disk s') = (offset + size)%nat /\
    take (length (disk s)) (disk s') = disk s /\
    decode_kv (take size (drop offset (disk s'))) = inr (now, key, value).
Proof.
  intros [Hpos _]%reachable_inv
         (size & data & He & _ & _ & ->)%set_returns.
  pose proof (encode_kv_length _ _ _ _ _ He) as Hlen.
  pose proof (decode_encode_kv _ _ _ _ _ He) as Hdec.
  apply encode_kv_inv in He as (kb & vb & Ek & Ev & _ & _ & _ & -> & Hd).
  exists kb, vb. cbn [keydir disk]. rewrite Hpos.
  split; [exact Ek|]. split; [exact Ev|]. cbn zeta.
  split; [apply lookup_insert_eq|]. split; [reflexivity|].
  split; [intros k Hk; now apply lookup_insert_ne|].
  split; [intros Hk; now apply map_size_insert_Some|].
  split; [intros ->; cbn [length]; lia|].
  split; [rewrite !length_app; lia|].
  split; [apply take_app_length|].
  now rewrite (read_behind_buffer _ _ _ _ Hlen).
Qed.

Lemma set_indexes_record_witness :
  reachable after_failed_ab /\
  set 1700000001 Durable str_c [100] after_failed_ab
  = (inr tt, after_failed_then_cd) /\
  length (disk after_failed_ab) = 0%nat /\
  length (fw_buffer after_failed_ab) = 14%nat /\
  keydir after_failed_then_cd !! str_c = Some (14, 14)%nat /\
  decode_kv (take 14 (drop 14 (disk after_failed_then_cd)))
  = inr (1700000001, str_c, [100]).
Proof.
  assert (R : reachable after_failed_ab)
    by (apply reach_set, (reach_init []); reflexivity).
  assert (E : set 1700000001 Durable str_c [100] after_failed_ab
              = (inr tt, after_failed_then_cd)) by reflexivity.
  split; [exact R|]. split; [exact E|].
  split; [reflexivity|]. split; [reflexivity|].
  destruct (set_indexes_record 1700000001 Durable str_c [100] after_failed_ab
              after_failed_then_cd R E)
    as (kb & vb & Ek & Ev & H1 & _ & _ & _ & _ & _ & _ & H2).
  injection Ek as <-. injection Ev as <-. split; [exact H1 | exact H2].
Defined.

(** C7, as stated, does not hold: the offset of the entry is not always the
    length of the log before the append.  After a [set("a", "b")] whose
    flush failed with nothing written, the log is empty and the 14 octets of
    that record wait in the buffer; the [set("c", "d")] that follows returns
    with the entry (14, 14) for "c". *)
Lemma set_offset_is_not_log_length :
  reachable after_failed_ab /\
  set 1700000001 Durable str_c [100] after_failed_ab
  = (inr tt, after_failed_then_cd) /\
  length (disk after_failed_ab) = 0%nat /\
  keydir after_failed_then_cd !! str_c = Some (14, 14)%nat.
Proof.
  split; [apply reach_set, reachable_fresh|]. repeat split.
Qed.

(** ** Absent keys and empty values *)

(** C6, as the code has it. [get] of a key that is not in the KeyDir returns
    the empty string and changes nothing, whatever the state of the engine;
    no exception is raised.  On an engine opened on an empty file this is
    the answer for every key. *)
Theorem get_absent_key s key :
  keydir s !! key = None ->
  get key s = (inr [], s) /\
  (forall s0 key0, __init__ [] = inr s0 -> get key0 s0 = (inr [], s0)).
Proof.
  intros Hk. split.
  - rewrite get_run. now rewrite Hk.
  - intros s0 key0 [= <-]. reflexivity.
Qed.

Lemma get_absent_key_witness :
  keydir after_ab !! str_b = None /\
  get str_b after_ab = (inr [], after_ab).
Proof.
  assert (H : keydir after_ab !! str_b = None) by reflexivity.
  split; [exact H|].
  exact (proj1 (get_absent_key after_ab str_b H)).
Defined.

(** C6, as stated, does not hold: the answer for an absent key is not
    distinct from every stored value.  After [set("a", "")] the key "b" is
    absent and the value stored under "a" is the empty string, and [get]
    returns the same empty string for both. *)
Lemma absent_result_not_distinct :
  reachable after_a_empty /\
  keydir after_a_empty !! str_b = None /\
  stored after_a_empty str_a [] /\
  fst (get str_b after_a_empty) = fst (get str_a after_a_empty).
Proof.
  split; [apply reach_set, reachable_fresh|].
  split; [reflexivity|].
  split; [|reflexivity].
  exists 0%nat, 13%nat, 1700000000. split; reflexivity.
Qed.

(** C10. A [set(key, "")] that returns is followed by a [get(key)] that
    returns the empty string, which is also what [get] returns for any key
    that is not in the KeyDir: the two answers are equal. *)
Theorem empty_value_reads_as_absent now io key other s s' :
  reachable s ->
  set now io key [] s = (inr tt, s') ->
  keydir s' !! other = None ->
  fst (get key s') = inr [] /\
  fst (get other s') = inr [] /\
  fst (get key s') = fst (get other s').
Proof.
  intros R E Ho.
  pose proof (set_then_get _ _ _ _ _ _ R E) as G1.
  assert (G2 : fst (get other s') = inr []) by now rewrite get_run, Ho.
  repeat split; congruence.
Qed.

Lemma empty_value_reads_as_absent_witness :
  reachable fresh /\
  set 1700000000 Durable str_a [] fresh = (inr tt, after_a_empty) /\
  keydir after_a_empty !! str_b = None /\
  fst (get str_a after_a_empty) = fst (get str_b after_a_empty).
Proof.
  assert (R : reachable fresh) by (apply (reach_init []); reflexivity).
  assert (E : set 1700000000 Durable str_a [] fresh = (inr tt, after_a_empty))
    by reflexivity.
  assert (H : keydir after_a_empty !! str_b = None) by reflexivity.
  repeat (split; [assumption|]).
  exact (proj2 (proj2 (empty_value_reads_as_absent 1700000000 Durable str_a
                         str_b fresh after_a_empty R E H))).
Defined.

(** ** Failed writes *)

(** Whenever the flush of a [set] fails, on an open engine and a valid
    triple, [IOFailure] leaves the method and the KeyDir keeps the entry
    written before the append: it points at the place the record will take
    when the buffer reaches the disk, and only [n] of the buffered octets
    have. *)
Lemma set_failed_write now n key value s size data :
  encode_kv now key value = inr (size, data) ->
  closed (fw s) = false ->
  exists s',
    set now (Fails n) key value s = (inl IOFailure, s') /\
    keydir s' !! key = Some ((pos (fw s) + length (fw_buffer s))%nat, size) /\
    disk s' = disk s ++ take n (fw_buffer s ++ data) /\
    fw_buffer s' = drop n (fw_buffer s ++ data).
Proof.
  intros He Hc. rewrite set_run, He, Hc. cbn zeta.
  eexists. split; [reflexivity|]. cbn [keydir disk fw_buffer pushed kept].
  split; [apply lookup_insert_eq | split; reflexivity].
Qed.

(** C5, on the code. [set("a", "b")] on an engine opened on an empty file,
    the append failing with nothing written: [IOFailure] propagates, but the
    KeyDir has changed, and its new entry for "a" points at octets 0..14 of
    a log that is still empty. *)
Theorem failed_write_leaves_entry :
  set 1700000000 (Fails 0) str_a str_b fresh = (inl IOFailure, after_failed_ab) /\
  keydir fresh !! str_a = None /\
  keydir after_failed_ab !! str_a = Some (0, 14)%nat /\
  disk after_failed_ab = [].
Proof. repeat split; reflexivity. Qed.

(** C9, on the code. The state after that failed [set] is one the API leads
    to; its KeyDir entry for "a" points at a range that does not decode, and
    [get("a")] raises the decode failure. *)
Theorem get_after_failed_write_raises :
  reachable after_failed_ab /\
  keydir after_failed_ab !! str_a = Some (0, 14)%nat /\
  decode_kv (take 14 (drop 0 (disk after_failed_ab))) = inl MalformedRecord /\
  fst (get str_a after_failed_ab) = inl MalformedRecord /\
  IndexCorruption MalformedRecord.
Proof.
  split; [apply reach_set, reachable_fresh|].
  repeat split; try reflexivity. right. reflexivity.
Qed.

(** ** The load scan on a log of complete records *)

Lemma fr_read_at (A B C : bytes) n p fwh kd0 :
  p = length A -> n = length B ->
  fr_read n (mkStore (A ++ B ++ C) fwh (Handle p false) kd0) =
  (inr B, mkStore (A ++ B ++ C) fwh (Handle (length (A ++ B)) false) kd0).
Proof.
  intros -> ->. unfold fr_read. cbn.
  rewrite drop_app_length, take_app_length, length_app. reflexivity.
Qed.

Lemma fr_read_eof (d : bytes) n fwh kd0 :
  fr_read n (mkStore d fwh (Handle (length d) false) kd0) =
  (inr [], mkStore d fwh (Handle (length d) false) kd0).
Proof.
  unfold fr_read. cbn. rewrite drop_all, take_nil. cbn.
  now rewrite Nat.add_0_r.
Qed.

Lemma load_loop_round fuel kd offset header n :
  header <> [] ->
  load_loop (S fuel) kd offset header n =
  ('(_, ksz, vsz) ← lift (decode_header header);
   kb ← fr_read (N.to_nat ksz);
   key ← lift (from_option inr (inl UnicodeDecodeError) (utf8_decode kb));
   _ ← fr_read (N.to_nat vsz);
   scan_from fuel
     (<[key := (offset, (HEADER_SIZE + N.to_nat ksz + N.to_nat vsz)%nat)]> kd)
     (S n)).
Proof. destruct header; [congruence | reflexivity]. Qed.

Lemma header_bytes_nonempty a b c : header_bytes a b c <> [].
Proof.
  intros H. pose proof (length_header_bytes a b c) as L.
  rewrite H in L. discriminate.
Qed.

(** Scanning past complete records: the scan that starts at the first of
    the records [recs] goes on, after as many rounds as there are records,
    as the scan that starts behind the last of them, with the records
    indexed. *)
Lemma scan_from_prefix recs :
  forall d pre post kd n fuel fwh kd0,
    log_bytes recs = Some d ->
    scan_from (length recs + fuel) kd n
      (mkStore (pre ++ d ++ post) fwh (Handle (length pre) false) kd0)
    = scan_from fuel (log_keydir (length pre) recs kd) (n + length recs)
        (mkStore (pre ++ d ++ post) fwh (Handle (length (pre ++ d)) false) kd0).
Proof.
  induction recs as [|[[ts key] value] recs IH];
    intros d pre post kd n fuel fwh kd0 Hlog.
  - injection Hlog as <-. cbn [length Nat.add log_keydir app].
    now rewrite app_nil_r, Nat.add_0_r.
  - cbn [log_bytes] in Hlog.
    destruct (encode_kv ts key value) as [e|[size data]] eqn:He; [discriminate|].
    destruct (log_bytes recs) as [d'|] eqn:Hrecs; [|discriminate].
    injection Hlog as <-.
    pose proof (encode_kv_length _ _ _ _ _ He) as Hlen.
    pose proof He as (kb & vb & Ek & Ev & Ht & Hk & Hv & Hsize & ->)%encode_kv_inv.
    set (hdr := header_bytes ts (N.of_nat (length kb)) (N.of_nat (length vb))) in *.
    cbn [length Nat.add].
    unfold scan_from at 1. rewrite bind_run. unfold fr_tell. cbn [fr closed pos].
    rewrite bind_run.
    rewrite <- !app_assoc.
    rewrite (fr_read_at pre hdr (kb ++ vb ++ d' ++ post))
      by (try reflexivity; unfold hdr; now rewrite length_header_bytes).
    rewrite load_loop_round by apply header_bytes_nonempty.
    rewrite bind_run. unfold hdr at 1. rewrite decode_header_encode by assumption.
    cbn [lift]. unfold mret at 1, M_ret.
    rewrite bind_run, !Nat2N.id.
    replace (pre ++ hdr ++ kb ++ vb ++ d' ++ post)
      with ((pre ++ hdr) ++ kb ++ vb ++ d' ++ post) by now rewrite <- !app_assoc.
    rewrite (fr_read_at (pre ++ hdr) kb (vb ++ d' ++ post)) by reflexivity.
    rewrite bind_run, (utf8_roundtrip _ _ Ek). cbn [from_option lift].
    unfold mret at 1, M_ret.
    rewrite bind_run.
    replace ((pre ++ hdr) ++ kb ++ vb ++ d' ++ post)
      with (((pre ++ hdr) ++ kb) ++ vb ++ d' ++ post)
      by now rewrite <- !app_assoc.
    rewrite (fr_read_at ((pre ++ hdr) ++ kb) vb (d' ++ post)) by reflexivity.
    replace (((pre ++ hdr) ++ kb) ++ vb ++ d' ++ post)
      with ((pre ++ hdr ++ kb ++ vb) ++ d' ++ post) by now rewrite <- !app_assoc.
    replace (((pre ++ hdr) ++ kb) ++ vb) with (pre ++ hdr ++ kb ++ vb)
      by now rewrite <- !app_assoc.
    rewrite (IH d' (pre ++ hdr ++ kb ++ vb)) by reflexivity.
    cbn [log_keydir]. rewrite He.
    rewrite (length_app pre), Hlen, Hsize.
    rewrite Nat.add_succ_r. cbn [Nat.add].
    replace ((pre ++ hdr ++ kb ++ vb) ++ d') with (pre ++ hdr ++ kb ++ vb ++ d')
      by now rewrite <- !app_assoc.
    reflexivity.
Qed.

(** At the end of the file the scan stops, whatever fuel is left. *)
Lemma scan_from_eof fuel kd n (d : bytes) fwh kd0 :
  scan_from fuel kd n (mkStore d fwh (Handle (length d) false) kd0)
  = (inr (kd, n), mkStore d fwh (Handle (length d) false) kd0).
Proof.
  unfold scan_from. rewrite bind_run. unfold fr_tell. cbn [fr closed pos].
  rewrite bind_run, fr_read_eof. destruct fuel; reflexivity.
Qed.

Lemma scan_from_records recs :
  forall d pre kd n fuel fwh kd0,
    log_bytes recs = Some d ->
    (length recs <= fuel)%nat ->
    scan_from fuel kd n (mkStore (pre ++ d) fwh (Handle (length pre) false) kd0)
    = (inr (log_keydir (length pre) recs kd, (n + length recs)%nat),
       mkStore (pre ++ d) fwh (Handle (length (pre ++ d)) false) kd0).
Proof.
  intros d pre kd n fuel fwh kd0 Hlog Hfuel.
  replace fuel with (length recs + (fuel - length recs))%nat by lia.
  pose proof (scan_from_prefix recs d pre [] kd n (fuel - length recs) fwh kd0
                Hlog) as H.
  rewrite app_nil_r in H. rewrite H. apply scan_from_eof.
Qed.

Lemma log_bytes_length recs d :
  log_bytes recs = Some d -> (length recs <= length d)%nat.
Proof.
  revert d. induction recs as [|[[ts key] value] recs IH]; intros d; cbn.
  - intros _. lia.
  - destruct (encode_kv ts key value) as [e|[size data]] eqn:He; [discriminate|].
    destruct (log_bytes recs) as [d'|]; [|discriminate].
    intros [= <-]. specialize (IH d' eq_refl).
    apply encode_kv_inv in He as (kb & vb & _ & _ & _ & _ & _ & _ & ->).
    rewrite !length_app, length_header_bytes. unfold HEADER_SIZE. lia.
Qed.

Lemma log_bytes_snoc recs ts key value d size data :
  log_bytes recs = Some d ->
  encode_kv ts key value = inr (size, data) ->
  log_bytes (recs ++ [(ts, key, value)]) = Some (d ++ data).
Proof.
  revert d. induction recs as [|[[ts' key'] value'] recs IH]; intros d; cbn.
  - intros [= <-] ->. now rewrite app_nil_r.
  - destruct (encode_kv ts' key' value') as [e|[size' data']]; [discriminate|].
    destruct (log_bytes recs) as [d'|]; [|discriminate].
    intros [= <-] He. rewrite (IH d' eq_refl He). now rewrite app_assoc.
Qed.

Lemma log_bytes_snoc_inv recs ts key value d :
  log_bytes (recs ++ [(ts, key, value)]) = Some d ->
  exists d1 size data,
    log_bytes recs = Some d1 /\
    encode_kv ts key value = inr (size, data) /\
    d = d1 ++ data.
Proof.
  revert d. induction recs as [|[[ts' key'] value'] recs IH]; intros d; cbn.
  - destruct (encode_kv ts key value) as [e|[size data]]; [discriminate|].
    intros [= <-]. exists [], size, data. now rewrite app_nil_r.
  - destruct (encode_kv ts' key' value') as [e|[size' data']]; [discriminate|].
    destruct (log_bytes (recs ++ _)) as [d'|]; [|discriminate].
    intros [= <-]. destruct (IH d' eq_refl) as (d1 & size & data & -> & He & ->).
    exists (data' ++ d1), size, data. now rewrite app_assoc.
Qed.

Lemma log_keydir_snoc recs ts key value d size data offset kd :
  log_bytes recs = Some d ->
  encode_kv ts key value = inr (size, data) ->
  log_keydir offset (recs ++ [(ts, key, value)]) kd =
  <[key := ((offset + length d)%nat, size)]> (log_keydir offset recs kd).
Proof.
  revert d offset kd.
  induction recs as [|[[ts' key'] value'] recs IH]; intros d offset kd; cbn.
  - intros [= <-] ->. cbn. now rewrite Nat.add_0_r.
  - destruct (encode_kv ts' key' value') as [e|[size' data']] eqn:He';
      [discriminate|].
    destruct (log_bytes recs) as [d'|]; [|discriminate].
    intros [= <-] He. rewrite (IH d' _ _ eq_refl He).
    rewrite length_app, (encode_kv_length _ _ _ _ _ He').
    now rewrite Nat.add_assoc.
Qed.

Lemma load_keydir_run s :
  _load_keydir s =
  (r ← scan_from (S (length (disk s))) ∅ 0; mret (fst r)) s.
Proof.
  unfold _load_keydir, scan_from. rewrite !bind_run.
  destruct (fr_tell s) as [[e|offset] s1]; [reflexivity|].
  rewrite !bind_run.
  destruct (fr_read HEADER_SIZE s1) as [[e|header] s2]; reflexivity.
Qed.

(** The load scan of a log of complete records returns, leaves the handles
    at the end of the file, and builds the index of the records. *)
Lemma init_records recs d :
  log_bytes recs = Some d ->
  __init__ d =
  inr (mkStore d (Handle (length d) false) (Handle (length d) false)
         (log_keydir 0 recs ∅)).
Proof.
  intros Hlog. unfold __init__. rewrite load_keydir_run. cbn [disk].
  rewrite bind_run.
  pose proof (scan_from_records recs d [] ∅ 0%nat (S (length d))
                (Handle (length d) false) ∅ Hlog) as Hscan.
  cbn [app length] in Hscan. rewrite Hscan.
  - reflexivity.
  - apply log_bytes_length in Hlog. lia.
Qed.

Lemma init_consistent recs d s :
  log_bytes recs = Some d -> __init__ d = inr s ->
  consistent recs s /\ live s /\ flushed s.
Proof.
  intros Hlog Hi. rewrite (init_records _ _ Hlog) in Hi. injection Hi as <-.
  repeat split. exact Hlog.
Qed.

Lemma set_consistent recs now io key value s s' :
  consistent recs s -> flushed s ->
  set now io key value s = (inr tt, s') ->
  consistent (recs ++ [(now, key, value)]) s' /\
  closed (fr s') = closed (fr s) /\ closed (fw s') = false /\ flushed s'.
Proof.
  intros (Hlog & Hkd & Hpos) Hf (size & data & He & Hw & _ & ->)%set_returns.
  unfold flushed in *. rewrite Hf. cbn [app length]. rewrite Nat.add_0_r.
  repeat split; cbn [disk keydir fw fr pos].
  - now apply log_bytes_snoc with size.
  - rewrite (log_keydir_snoc _ _ _ _ _ _ _ _ _ Hlog He), Hkd, Hpos.
    reflexivity.
Qed.




(** ** Entries of a consistent KeyDir *)

Lemma slice_app (d data : bytes) offset size :
  (offset + size <= length d)%nat ->
  take size (drop offset (d ++ data)) = take size (drop offset d).
Proof.
  intros H. rewrite drop_app_le by lia.
  apply take_app_le. rewrite length_drop. lia.
Qed.

Lemma log_entry recs :
  forall d key offset size,
    log_bytes recs = Some d ->
    log_keydir 0 recs ∅ !! key = Some (offset, size) ->
    (offset + size <= length d)%nat /\
    exists ts value,
      decode_kv (take size (drop offset d)) = inr (ts, key, value).
Proof.
  induction recs as [|[[ts k] v] recs IH] using rev_ind;
    intros d key offset size Hlog Hkd.
  - cbn in Hkd. now rewrite lookup_empty in Hkd.
  - apply log_bytes_snoc_inv in Hlog as (d1 & size' & data & Hlog & He & ->).
    rewrite (log_keydir_snoc _ _ _ _ _ _ _ _ _ Hlog He) in Hkd.
    pose proof (encode_kv_length _ _ _ _ _ He) as Hlen.
    destruct (decide (k = key)) as [->|Hne].
    + rewrite lookup_insert_eq in Hkd. injection Hkd as <- <-.
      cbn [Nat.add]. split; [rewrite length_app; lia|].
      exists ts, v. rewrite (read_appended _ _ _ Hlen).
      exact (decode_encode_kv _ _ _ _ _ He).
    + rewrite lookup_insert_ne in Hkd by exact Hne.
      destruct (IH d1 key offset size Hlog Hkd) as (Hb & ts' & v' & Hd).
      split; [rewrite length_app; lia|].
      exists ts', v'. now rewrite slice_app.
Qed.

(** Every entry of a consistent KeyDir lies within the log and points at a
    record that decodes and holds the key of the entry: on an open engine
    [get] of that key returns the value of the record. *)
Lemma consistent_entries_decode recs s key offset size :
  consistent recs s ->
  keydir s !! key = Some (offset, size) ->
  (offset + size <= length (disk s))%nat /\
  exists value,
    stored s key value /\
    (closed (fr s) = false -> fst (get key s) = inr value).
Proof.
  intros (Hlog & Hkd & _) Hk. pose proof Hk as Hk'. rewrite Hkd in Hk'.
  destruct (log_entry _ _ _ _ _ Hlog Hk') as (Hb & ts & value & Hd).
  split; [exact Hb|]. exists value. split.
  - now exists offset, size, ts.
  - intros Hc. rewrite get_run, Hk, Hc. cbn zeta. now rewrite Hd.
Qed.

Lemma get_ext s s' key :
  disk s = disk s' -> keydir s = keydir s' -> closed (fr s) = closed (fr s') ->
  fst (get key s) = fst (get key s').
Proof.
  intros Hd Hk Hc. rewrite !get_run, Hd, Hk, Hc.
  destruct (keydir s' !! key) as [[offset size]|]; [|reflexivity].
  destruct (closed (fr s')); [reflexivity|]. cbn zeta.
  destruct (decode_kv _) as [e|[[ts k] v]]; reflexivity.
Qed.




(** ** Durability across restart *)



(** ** The load scan always ends *)

Lemma decode_header_error header e :
  decode_header header = inl e -> e = MalformedHeader.
Proof.
  unfold decode_header. destruct (length header <? HEADER_SIZE)%nat; congruence.
Qed.

Lemma load_loop_fuel fuel :
  forall kd offset header n s,
    header = [] \/ (length (disk s) - pos (fr s) < fuel)%nat ->
    fst (load_loop fuel kd offset header n s) <> inl LoopFuel.
Proof.
  induction fuel as [|fuel IH]; intros kd offset header n s Hm.
  - destruct Hm as [->|Hm]; [discriminate | lia].
  - destruct header as [|b header]; [discriminate|].
    destruct Hm as [Hm|Hm]; [discriminate|].
    rewrite load_loop_round by discriminate.
    rewrite bind_run.
    destruct (decode_header (b :: header)) as [e|[[ts ksz] vsz]] eqn:Hh.
    { apply decode_header_error in Hh as ->. discriminate. }
    cbn [lift]. unfold mret at 1, M_ret. rewrite bind_run.
    unfold fr_read at 1.
    destruct (closed (fr s)) eqn:Hc; [discriminate|].
    rewrite bind_run.
    destruct (utf8_decode _) as [key|]; [|discriminate].
    cbn [from_option lift]. unfold mret at 1, M_ret. rewrite bind_run.
    unfold fr_read at 1. cbn [fr closed pos disk fw keydir].
    unfold scan_from. rewrite bind_run. unfold fr_tell. cbn [fr closed pos].
    rewrite bind_run. unfold fr_read at 1. cbn [fr closed pos disk fw keydir].
    apply IH. cbn [disk fr pos].
    match goal with
    | |- ?h = [] \/ _ => destruct h as [|b' h'] eqn:Hnext; [now left | right]
    end.
    apply (f_equal length) in Hnext.
    rewrite length_take, length_drop in Hnext. cbn [length] in Hnext |- *.
    unfold HEADER_SIZE in Hnext. lia.
Qed.

(** The bound on the rounds of the loop is never reached: whatever the file
    holds, the constructor returns an engine or raises an exception of the
    codec or of the file object. *)
Lemma init_total d : __init__ d <> inl LoopFuel.
Proof.
  unfold __init__. rewrite load_keydir_run. cbn [disk]. rewrite bind_run.
  unfold scan_from. rewrite bind_run. unfold fr_tell. cbn [fr closed pos].
  rewrite bind_run. unfold fr_read at 1. cbn [fr closed pos disk fw keydir].
  match goal with
  | |- context [load_loop ?f ?kd ?o ?h ?n ?s] =>
      pose proof (load_loop_fuel f kd o h n s) as H;
      destruct (load_loop f kd o h n s) as [[e|r] s']
  end.
  - cbn [fst] in H. intros [= ->]. apply H; [|reflexivity].
    right. cbn [disk fr pos]. lia.
  - discriminate.
Qed.

(** ** Truncated logs *)

Lemma fr_read_short (A B : bytes) n p fwh kd0 :
  p = length A -> (length B <= n)%nat ->
  fr_read n (mkStore (A ++ B) fwh (Handle p false) kd0) =
  (inr B, mkStore (A ++ B) fwh (Handle (length (A ++ B)) false) kd0).
Proof.
  intros -> Hn. unfold fr_read. cbn.
  rewrite drop_app_length, take_ge, length_app by exact Hn. reflexivity.
Qed.

Lemma init_after_records recs d post :
  log_bytes recs = Some d ->
  __init__ (d ++ post) =
  match scan_from (S (length (d ++ post)) - length recs) (log_keydir 0 recs ∅)
          (length recs)
          (mkStore (d ++ post) (Handle (length (d ++ post)) false)
             (Handle (length d) false) ∅) with
  | (inr r, s') => inr (MkStore (disk s') (fw s') (fr s') (fst r) (fw_buffer s'))
  | (inl e, _) => inl e
  end.
Proof.
  intros Hlog. unfold __init__. rewrite load_keydir_run. cbn [disk].
  rewrite bind_run.
  pose proof (log_bytes_length _ _ Hlog) as Hn.
  set (k := (S (length (d ++ post)) - length recs)%nat).
  assert (Hk : S (length (d ++ post)) = (length recs + k)%nat)
    by (unfold k; rewrite length_app; lia).
  rewrite Hk.
  pose proof (scan_from_prefix recs d [] post ∅ 0%nat k
                (Handle (length (d ++ post)) false) ∅ Hlog) as H.
  cbn [app length Nat.add] in H. rewrite H.
  destruct (scan_from k _ _ _) as [[e|r] s']; reflexivity.
Qed.

(** A log of complete records followed by a record cut inside its header:
    the load scan raises [MalformedHeader]. *)
Lemma init_truncated_header recs d ts key value size data p :
  log_bytes recs = Some d ->
  encode_kv ts key value = inr (size, data) ->
  (0 < p < HEADER_SIZE)%nat ->
  __init__ (d ++ take p data) = inl MalformedHeader.
Proof.
  intros Hlog He Hp. rewrite (init_after_records _ _ _ Hlog).
  pose proof (log_bytes_length _ _ Hlog) as Hn.
  pose proof (encode_kv_length _ _ _ _ _ He) as Hlen.
  apply encode_kv_inv in He as (kb & vb & _ & _ & _ & _ & _ & -> & Hd).
  assert (Lp : length (take p data) = p) by (rewrite length_take; lia).
  destruct (S (length (d ++ take p data)) - length recs)%nat as [|fuel] eqn:Hf;
    [rewrite length_app in Hf; lia|].
  unfold scan_from. rewrite bind_run. unfold fr_tell. cbn [fr closed pos].
  rewrite bind_run, fr_read_short by (try reflexivity; lia).
  rewrite load_loop_round
    by (intros H; rewrite H in Lp; cbn in Lp; lia).
  rewrite bind_run. unfold decode_header. rewrite Lp.
  destruct (Nat.ltb_spec p HEADER_SIZE); [reflexivity | lia].
Qed.

(** A log of complete records followed by a record cut inside its value:
    the load scan raises nothing.  It returns a KeyDir with an entry for the
    key of the cut record, of the full size of the record, which reaches
    beyond the end of the file. *)
Lemma init_truncated_value recs d ts key value size data kb p :
  log_bytes recs = Some d ->
  encode_kv ts key value = inr (size, data) ->
  utf8_encode key = Some kb ->
  (HEADER_SIZE + length kb <= p < size)%nat ->
  exists s,
    __init__ (d ++ take p data) = inr s /\
    keydir s = <[key := (length d, size)]> (log_keydir 0 recs ∅) /\
    disk s = d ++ take p data /\
    (length (disk s) < length d + size)%nat.
Proof.
  intros Hlog He Ek Hp. rewrite (init_after_records _ _ _ Hlog).
  pose proof (log_bytes_length _ _ Hlog) as Hn.
  pose proof (encode_kv_length _ _ _ _ _ He) as Hlen.
  apply encode_kv_inv in He as (kb' & vb & Ek' & Ev & Ht & Hk & Hv & Hsize & Hd).
  rewrite Ek in Ek'. injection Ek' as <-.
  set (hdr := header_bytes ts (N.of_nat (length kb)) (N.of_nat (length vb))) in *.
  assert (Lh : length hdr = HEADER_SIZE) by apply length_header_bytes.
  assert (Hcut : take p data = hdr ++ kb ++ take (p - HEADER_SIZE - length kb) vb).
  { rewrite Hd, take_app_ge, Lh by lia. f_equal.
    rewrite take_app_ge by lia. reflexivity. }
  set (vb' := take (p - HEADER_SIZE - length kb) vb) in *.
  assert (Lv : (length vb' < length vb)%nat)
    by (unfold vb'; rewrite length_take; lia).
  rewrite Hcut.
  destruct (S (length (d ++ hdr ++ kb ++ vb')) - length recs)%nat
    as [|fuel] eqn:Hf; [rewrite length_app in Hf; lia|].
  unfold scan_from at 1. rewrite bind_run. unfold fr_tell. cbn [fr closed pos].
  rewrite bind_run.
  rewrite (fr_read_at d hdr (kb ++ vb')) by (try reflexivity; now rewrite Lh).
  rewrite load_loop_round by apply header_bytes_nonempty.
  rewrite bind_run. unfold hdr at 1. rewrite decode_header_encode by assumption.
  cbn [lift]. unfold mret at 1, M_ret.
  rewrite bind_run, !Nat2N.id.
  replace (d ++ hdr ++ kb ++ vb') with ((d ++ hdr) ++ kb ++ vb')
    by now rewrite <- !app_assoc.
  rewrite (fr_read_at (d ++ hdr) kb vb') by reflexivity.
  rewrite bind_run, (utf8_roundtrip _ _ Ek). cbn [from_option lift].
  unfold mret at 1, M_ret. rewrite bind_run.
  replace ((d ++ hdr) ++ kb ++ vb') with (((d ++ hdr) ++ kb) ++ vb')
    by now rewrite <- !app_assoc.
  rewrite (fr_read_short ((d ++ hdr) ++ kb) vb') by (try reflexivity; lia).
  rewrite scan_from_eof. cbn [fst disk fw fr].
  eexists. split; [reflexivity|]. cbn [keydir disk].
  rewrite <- !app_assoc. repeat split.
  - now rewrite Hsize.
  - rewrite !length_app, Lh. lia.
Qed.

(** C4, on the code.  The 14 octets of the record ("a", "b") cut after 13,
    inside the value: the constructor returns an engine, its KeyDir maps "a"
    to octets 0..14 of a file of 13, and [get("a")] raises.  The 15 octets
    of the record ("ab", "c") cut after 13, inside the key: the constructor
    returns an engine whose KeyDir holds the key "a", which was never
    written.  Cut after 5 octets, inside the header, the record makes the
    constructor raise [MalformedHeader]. *)
Theorem truncated_log_loads :
  length log_ab = 14%nat /\
  __init__ (take 13 log_ab)
  = inr (mkStore (take 13 log_ab) (Handle 13 false) (Handle 13 false)
           {[ str_a := (0, 14)%nat ]}) /\
  (forall s, __init__ (take 13 log_ab) = inr s ->
             fst (get str_a s) = inl MalformedRecord) /\
  length log_abc = 15%nat /\
  __init__ (take 13 log_abc)
  = inr (mkStore (take 13 log_abc) (Handle 13 false) (Handle 13 false)
           {[ str_a := (0, 15)%nat ]}) /\
  __init__ (take 5 log_ab) = inl MalformedHeader.
Proof.
  repeat split; try reflexivity.
  intros s [= <-]. reflexivity.
Qed.

(** ** Runs without failed appends *)

Lemma steady_consistent s :
  steady s -> exists recs, consistent recs s /\ live s /\ flushed s.
Proof.
  induction 1 as [d s [recs Hlog] Hi|s now key value _ (recs & Hc & Hl & Hf)
                 |s key _ (recs & Hc & Hl & Hf)].
  - exists recs. now apply init_consistent with d.
  - destruct (set now Durable key value s) as [[e|[]] s'] eqn:Es.
    + exists recs. cbn [snd].
      rewrite set_run in Es.
      destruct (encode_kv now key value) as [e'|[size data]].
      * injection Es as _ <-. now split.
      * destruct Hl as [Hw Hr]. rewrite Hw in Es. discriminate.
    + exists (recs ++ [(now, key, value)]). cbn [snd].
      destruct (set_consistent _ _ _ _ _ _ _ Hc Hf Es) as (Hc' & Hr & Hw & Hf').
      split; [exact Hc'|]. destruct Hl as [_ Hl].
      split; [split; congruence | exact Hf'].
  - exists recs. rewrite get_run.
    destruct (keydir s !! key) as [[offset size]|]; [|now split].
    destruct Hl as [Hw Hr]. rewrite Hr. cbn zeta.
    destruct Hc as (Hlog & Hkd & Hpos).
    destruct (decode_kv _) as [e|[[ts k] v]]; cbn [snd]; now repeat split.
Qed.

(** In a run from a log of complete records whose appends all succeed,
    [get] never raises: it returns the empty string for a key that is not
    in the KeyDir, and the value of the record the entry points at
    otherwise. *)
Lemma steady_get_returns s key :
  steady s -> exists value, fst (get key s) = inr value.
Proof.
  intros (recs & Hc & [_ Hr] & _)%steady_consistent.
  destruct (keydir s !! key) as [[offset size]|] eqn:Hk.
  - destruct (consistent_entries_decode _ _ _ _ _ Hc Hk)
      as (_ & value & _ & Hg).
    exists value. now apply Hg.
  - exists []. now rewrite get_run, Hk.
Qed.

(** * Further properties of the engine *)

(** ** The constructor on an arbitrary file *)

Lemma load_loop_errors fuel :
  forall kd offset header n s e,
    closed (fr s) = false ->
    header = [] \/ (length (disk s) - pos (fr s) < fuel)%nat ->
    fst (load_loop fuel kd offset header n s) = inl e ->
    e = MalformedHeader \/ e = UnicodeDecodeError.
Proof.
  induction fuel as [|fuel IH]; intros kd offset header n s e Hc Hm.
  - destruct Hm as [->|Hm]; [discriminate | lia].
  - destruct header as [|b header]; [discriminate|].
    destruct Hm as [Hm|Hm]; [discriminate|].
    rewrite load_loop_round by discriminate.
    rewrite bind_run.
    destruct (decode_header (b :: header)) as [e'|[[ts ksz] vsz]] eqn:Hh.
    { apply decode_header_error in Hh as ->. intros [= <-]. now left. }
    cbn [lift]. unfold mret at 1, M_ret. rewrite bind_run.
    unfold fr_read at 1. rewrite Hc. rewrite bind_run.
    destruct (utf8_decode _) as [key|]; [|intros [= <-]; now right].
    cbn [from_option lift]. unfold mret at 1, M_ret. rewrite bind_run.
    unfold fr_read at 1. cbn [fr closed pos disk fw keydir].
    unfold scan_from. rewrite bind_run. unfold fr_tell. cbn [fr closed pos].
    rewrite bind_run. unfold fr_read at 1. cbn [fr closed pos disk fw keydir].
    apply IH; [reflexivity|]. cbn [disk fr pos].
    match goal with
    | |- ?h = [] \/ _ => destruct h as [|b' h'] eqn:Hnext; [now left | right]
    end.
    apply (f_equal length) in Hnext.
    rewrite length_take, length_drop in Hnext. cbn [length] in Hnext |- *.
    unfold HEADER_SIZE in Hnext. lia.
Qed.

(** X1. Whatever the file holds, the constructor ends, and it can raise in
    two ways only: on a last fragment shorter than a header, and on key
    octets that are not UTF-8.  The octets of the values are no cause of
    failure. *)
Theorem init_raises_only d e :
  __init__ d = inl e -> e = MalformedHeader \/ e = UnicodeDecodeError.
Proof.
  unfold __init__. rewrite load_keydir_run. cbn [disk]. rewrite bind_run.
  unfold scan_from. rewrite bind_run. unfold fr_tell. cbn [fr closed pos].
  rewrite bind_run. unfold fr_read at 1. cbn [fr closed pos disk fw keydir].
  match goal with
  | |- context [load_loop ?f ?kd ?o ?h ?n ?s] =>
      pose proof (load_loop_errors f kd o h n s) as H;
      destruct (load_loop f kd o h n s) as [[e'|r] s']
  end.
  - intros [= <-]. apply H; [reflexivity | | reflexivity].
    right. cbn [disk fr pos]. lia.
  - discriminate.
Qed.

Lemma init_raises_only_witness :
  __init__ (take 5 log_ab) = inl MalformedHeader /\
  (MalformedHeader = MalformedHeader \/ MalformedHeader = UnicodeDecodeError).
Proof.
  assert (H : __init__ (take 5 log_ab) = inl MalformedHeader) by reflexivity.
  split; [exact H|]. exact (init_raises_only (take 5 log_ab) MalformedHeader H).
Defined.

Lemma entries_in_insert d kd key offset size :
  entries_in d kd ->
  (offset + HEADER_SIZE <= length d)%nat -> (HEADER_SIZE <= size)%nat ->
  entries_in d (<[key := (offset, size)]> kd).
Proof.
  intros Hkd Ho Hs k o sz. destruct (decide (key = k)) as [->|Hne].
  - rewrite lookup_insert_eq. intros [= <- <-]. now split.
  - rewrite lookup_insert_ne by exact Hne. apply Hkd.
Qed.

Lemma load_loop_returns fuel :
  forall kd offset header n s r s',
    closed (fr s) = false ->
    header = take HEADER_SIZE (drop offset (disk s)) ->
    pos (fr s) = (offset + length header)%nat ->
    (offset <= length (disk s))%nat ->
    entries_in (disk s) kd ->
    load_loop fuel kd offset header n s = (inr r, s') ->
    pos (fr s') = length (disk s) /\ entries_in (disk s) (fst r).
Proof.
  induction fuel as [|fuel IH]; intros kd offset header n s r s' Hc Hh Hp Ho Hkd.
  - destruct header as [|b header]; [|discriminate].
    intros [= <- <-]. cbn [fst]. split; [|exact Hkd].
    symmetry in Hh. apply take_nil_inv in Hh as [Hh|Hh]; [discriminate|].
    apply drop_nil_inv in Hh. cbn [length] in Hp. lia.
  - destruct header as [|b h] eqn:Eh.
    { intros [= <- <-]. cbn [fst]. split; [|exact Hkd].
      symmetry in Hh. apply take_nil_inv in Hh as [Hh|Hh]; [discriminate|].
      apply drop_nil_inv in Hh. cbn [length] in Hp. lia. }
    rewrite <- Eh in *. assert (Hne : header <> []) by (rewrite Eh; discriminate).
    rewrite load_loop_round by exact Hne.
    rewrite bind_run.
    destruct (decode_header header) as [e'|[[ts ksz] vsz]] eqn:Hd; [discriminate|].
    assert (Hl : length header = HEADER_SIZE).
    { unfold decode_header in Hd.
      destruct (Nat.ltb_spec (length header) HEADER_SIZE); [discriminate|].
      pose proof (length_take (drop offset (disk s)) HEADER_SIZE) as L.
      rewrite <- Hh in L. lia. }
    assert (Hfit : (offset + HEADER_SIZE <= length (disk s))%nat).
    { pose proof (length_take (drop offset (disk s)) HEADER_SIZE) as L.
      rewrite <- Hh, length_drop in L. lia. }
    cbn [lift]. unfold mret at 1, M_ret. rewrite bind_run.
    unfold fr_read at 1. rewrite Hc. rewrite bind_run.
    destruct (utf8_decode _) as [key|]; [|discriminate].
    cbn [from_option lift]. unfold mret at 1, M_ret. rewrite bind_run.
    unfold fr_read at 1. cbn [fr closed pos disk fw keydir].
    unfold scan_from. rewrite bind_run. unfold fr_tell. cbn [fr closed pos].
    rewrite bind_run. unfold fr_read at 1. cbn [fr closed pos disk fw keydir].
    intros Hrun. eapply IH in Hrun; cbn [disk fr pos closed] in *.
    + exact Hrun.
    + reflexivity.
    + reflexivity.
    + reflexivity.
    + rewrite !length_take, !length_drop. lia.
    + apply entries_in_insert; [exact Hkd | exact Hfit | lia].
Qed.

(** X2. Whatever file the constructor accepts, it leaves the file as it
    was, both handles open and at the end of the file, and a KeyDir whose
    every entry starts where a whole header fits in the file and is at least
    as long as a header. *)
Theorem init_any_file d s :
  __init__ d = inr s ->
  disk s = d /\ live s /\
  pos (fw s) = length d /\ pos (fr s) = length d /\
  entries_in d (keydir s).
Proof.
  intros Hi. destruct (init_frame _ _ Hi) as (Hd & Hw & Hr & _).
  revert Hi. unfold __init__. rewrite load_keydir_run. cbn [disk].
  rewrite bind_run.
  unfold scan_from. rewrite bind_run. unfold fr_tell. cbn [fr closed pos].
  rewrite bind_run. unfold fr_read at 1.
  cbn [fr closed pos disk fw keydir fw_buffer].
  match goal with
  | |- context [load_loop ?f ?kd ?o ?h ?n ?s0] =>
      pose proof (load_loop_returns f kd o h n s0) as H;
      pose proof (preserves_load_loop f kd o h n s0) as (F1 & F2 & _ & _);
      destruct (load_loop f kd o h n s0) as [[e'|r] s'] eqn:El
  end; [discriminate|].
  cbn [snd disk fw] in F1, F2.
  intros [= <-]. cbn [disk fw fr keydir pos] in *.
  destruct (H r s') as (Hp & He); try reflexivity.
  - cbn [disk]. lia.
  - intros key offset size Hk. now rewrite lookup_empty in Hk.
  - unfold live. cbn [fw fr]. rewrite F2. cbn [pos closed].
    split; [exact F1|]. split; [split; [reflexivity | exact Hr]|].
    split; [reflexivity|]. split; [exact Hp | exact He].
Qed.

Lemma init_any_file_witness :
  __init__ (take 13 log_ab)
  = inr (mkStore (take 13 log_ab) (Handle 13 false) (Handle 13 false)
           {[ str_a := (0, 14)%nat ]}) /\
  entries_in (take 13 log_ab) {[ str_a := (0, 14)%nat ]}.
Proof.
  assert (H : __init__ (take 13 log_ab)
              = inr (mkStore (take 13 log_ab) (Handle 13 false)
                       (Handle 13 false) {[ str_a := (0, 14)%nat ]}))
    by reflexivity.
  split; [exact H|].
  exact (proj2 (proj2 (proj2 (proj2 (init_any_file _ _ H))))).
Defined.

(** ** The load scan reads headers and keys only *)

Lemma raw_ok_inv ts kb vb :
  raw_ok (ts, kb, vb) = true ->
  fits_u32 ts = true /\ fits_u32 (N.of_nat (length kb)) = true /\
  fits_u32 (N.of_nat (length vb)) = true /\
  exists key, utf8_decode kb = Some key.
Proof.
  unfold raw_ok.
  intros [[[H1 H2]%andb_true_iff H3]%andb_true_iff H4]%andb_true_iff.
  destruct (utf8_decode kb) as [key|]; [|discriminate]. eauto 6.
Qed.

Lemma scan_from_raw recs :
  forall pre post kd n fuel fwh kd0,
    forallb raw_ok recs = true ->
    scan_from (length recs + fuel) kd n
      (mkStore (pre ++ raw_log recs ++ post) fwh (Handle (length pre) false) kd0)
    = scan_from fuel (raw_keydir (length pre) recs kd) (n + length recs)
        (mkStore (pre ++ raw_log recs ++ post) fwh
           (Handle (length (pre ++ raw_log recs)) false) kd0).
Proof.
  induction recs as [|[[ts kb] vb] recs IH];
    intros pre post kd n fuel fwh kd0 Hok.
  - cbn [length Nat.add raw_keydir raw_log app].
    now rewrite app_nil_r, Nat.add_0_r.
  - cbn [forallb] in Hok. apply andb_true_iff in Hok as [Hr Hok].
    apply raw_ok_inv in Hr as (Ht & Hk & Hv & key & Dk).
    cbn [raw_log raw_keydir length Nat.add]. rewrite Dk. unfold raw_record.
    set (hdr := header_bytes ts (N.of_nat (length kb)) (N.of_nat (length vb))).
    set (d' := raw_log recs).
    unfold scan_from at 1. rewrite bind_run. unfold fr_tell. cbn [fr closed pos].
    rewrite bind_run.
    rewrite <- !app_assoc.
    rewrite (fr_read_at pre hdr (kb ++ vb ++ d' ++ post))
      by (try reflexivity; unfold hdr; now rewrite length_header_bytes).
    rewrite load_loop_round by apply header_bytes_nonempty.
    rewrite bind_run. unfold hdr at 1. rewrite decode_header_encode by assumption.
    cbn [lift]. unfold mret at 1, M_ret.
    rewrite bind_run, !Nat2N.id.
    replace (pre ++ hdr ++ kb ++ vb ++ d' ++ post)
      with ((pre ++ hdr) ++ kb ++ vb ++ d' ++ post) by now rewrite <- !app_assoc.
    rewrite (fr_read_at (pre ++ hdr) kb (vb ++ d' ++ post)) by reflexivity.
    rewrite bind_run, Dk. cbn [from_option lift].
    unfold mret at 1, M_ret.
    rewrite bind_run.
    replace ((pre ++ hdr) ++ kb ++ vb ++ d' ++ post)
      with (((pre ++ hdr) ++ kb) ++ vb ++ d' ++ post)
      by now rewrite <- !app_assoc.
    rewrite (fr_read_at ((pre ++ hdr) ++ kb) vb (d' ++ post)) by reflexivity.
    replace (((pre ++ hdr) ++ kb) ++ vb ++ d' ++ post)
      with ((pre ++ hdr ++ kb ++ vb) ++ d' ++ post) by now rewrite <- !app_assoc.
    replace (((pre ++ hdr) ++ kb) ++ vb) with (pre ++ hdr ++ kb ++ vb)
      by now rewrite <- !app_assoc.
    unfold d'. rewrite (IH (pre ++ hdr ++ kb ++ vb)) by exact Hok.
    assert (L : length (pre ++ hdr ++ kb ++ vb)
                = (length pre + (HEADER_SIZE + length kb + length vb))%nat).
    { rewrite !length_app. unfold hdr. rewrite length_header_bytes. lia. }
    rewrite L, Nat.add_succ_r. cbn [Nat.add].
    replace ((pre ++ hdr ++ kb ++ vb) ++ raw_log recs)
      with (pre ++ hdr ++ kb ++ vb ++ raw_log recs) by now rewrite <- !app_assoc.
    reflexivity.
Qed.

Lemma raw_log_length recs :
  forallb raw_ok recs = true -> (length recs <= length (raw_log recs))%nat.
Proof.
  induction recs as [|[[ts kb] vb] recs IH]; cbn [forallb raw_log length].
  - lia.
  - intros [_ Hok]%andb_true_iff. specialize (IH Hok).
    unfold raw_record. rewrite !length_app, length_header_bytes.
    unfold HEADER_SIZE. lia.
Qed.

(** X3. The load scan reads the headers and the keys and skips the values:
    on a file of records whose header fields fit and whose keys are UTF-8,
    the constructor returns the index of the records whatever octets the
    values hold, valid text or not. *)
Theorem load_skips_values recs :
  forallb raw_ok recs = true ->
  __init__ (raw_log recs)
  = inr (mkStore (raw_log recs) (Handle (length (raw_log recs)) false)
           (Handle (length (raw_log recs)) false) (raw_keydir 0 recs ∅)).
Proof.
  intros Hok. unfold __init__. rewrite load_keydir_run. cbn [disk].
  rewrite bind_run.
  pose proof (raw_log_length _ Hok) as Hn.
  set (k := (S (length (raw_log recs)) - length recs)%nat).
  assert (Hk : S (length (raw_log recs)) = (length recs + k)%nat)
    by (unfold k; lia).
  rewrite Hk.
  pose proof (scan_from_raw recs [] [] ∅ 0%nat k
                (Handle (length (raw_log recs)) false) ∅ Hok) as H.
  cbn [app length Nat.add] in H. rewrite app_nil_r in H. rewrite H.
  rewrite scan_from_eof. reflexivity.
Qed.

Lemma load_skips_values_witness :
  forallb raw_ok [(1700000000, ["a"%byte], [xff; xfe])] = true /\
  utf8_decode [xff; xfe] = None /\
  __init__ (raw_log [(1700000000, ["a"%byte], [xff; xfe])])
  = inr (mkStore (raw_log [(1700000000, ["a"%byte], [xff; xfe])])
           (Handle 15 false) (Handle 15 false) {[ str_a := (0, 15)%nat ]}).
Proof.
  assert (H : forallb raw_ok [(1700000000, ["a"%byte], [xff; xfe])] = true)
    by reflexivity.
  split; [exact H|]. split; [reflexivity|].
  exact (load_skips_values [(1700000000, ["a"%byte], [xff; xfe])] H).
Defined.

(** ** The keys of a loaded KeyDir *)

Lemma log_keydir_keys recs :
  forall d offset kd key,
    log_bytes recs = Some d ->
    is_Some (log_keydir offset recs kd !! key) <->
    is_Some (kd !! key) \/ key ∈ record_keys recs.
Proof.
  induction recs as [|[[ts k] v] recs IH]; intros d offset kd key Hlog.
  - cbn. rewrite elem_of_nil. tauto.
  - cbn [log_bytes] in Hlog. cbn [log_keydir record_keys map fst snd].
    destruct (encode_kv ts k v) as [e|[size data]]; [discriminate|].
    destruct (log_bytes recs) as [d'|] eqn:Hrecs; [|discriminate].
    rewrite (IH d' _ _ _ eq_refl), lookup_insert_is_Some, elem_of_cons.
    fold (record_keys recs).
    destruct (decide (k = key)) as [->|Hne]; [tauto|].
    split.
    + intros [[E|[_ H]]|H]; auto; congruence.
    + intros [H|[E|H]]; auto; congruence.
Qed.

Lemma log_keydir_size recs :
  forall offset kd,
    (base.size (log_keydir offset recs kd) <= base.size kd + length recs)%nat.
Proof.
  induction recs as [|[[ts k] v] recs IH]; intros offset kd.
  - cbn. lia.
  - cbn [log_keydir length].
    destruct (encode_kv ts k v) as [e|[size data]]; [lia|].
    specialize (IH (offset + size)%nat (<[k := (offset, size)]> kd)).
    rewrite map_size_insert in IH.
    destruct (kd !! k); cbn in IH; lia.
Qed.

(** X4. After the constructor has loaded a log of complete records, the
    KeyDir holds exactly the keys that occur in the log, one entry for each,
    however often a key was written: it never has more entries than the log
    has records. *)
Theorem loaded_keys recs d s :
  log_bytes recs = Some d ->
  __init__ d = inr s ->
  (forall key, is_Some (keydir s !! key) <-> key ∈ record_keys recs) /\
  (base.size (keydir s) <= length recs)%nat.
Proof.
  intros Hlog Hi. rewrite (init_records _ _ Hlog) in Hi. injection Hi as <-.
  cbn [keydir]. split.
  - intros key. rewrite (log_keydir_keys _ _ _ _ _ Hlog), lookup_empty.
    split; [intros [[x Hx]|H]; [discriminate | exact H] | auto].
  - pose proof (log_keydir_size recs 0 ∅) as H.
    rewrite map_size_empty in H. exact H.
Qed.

Lemma loaded_keys_witness :
  log_bytes [(1700000000, str_a, str_b); (1700000001, str_a, str_c)]
  = Some (disk after_ac) /\
  __init__ (disk after_ac)
  = inr (mkStore (disk after_ac) (Handle 28 false) (Handle 28 false)
           {[ str_a := (14, 14)%nat ]}) /\
  (base.size ({[ str_a := (14, 14)%nat ]} : gmap str (nat * nat)) <= 2)%nat.
Proof.
  assert (L : log_bytes [(1700000000, str_a, str_b); (1700000001, str_a, str_c)]
              = Some (disk after_ac)) by reflexivity.
  assert (I : __init__ (disk after_ac)
              = inr (mkStore (disk after_ac) (Handle 28 false)
                       (Handle 28 false) {[ str_a := (14, 14)%nat ]}))
    by reflexivity.
  split; [exact L|]. split; [exact I|].
  exact (proj2 (loaded_keys _ _ _ L I)).
Defined.

(** ** What the methods never do *)

Lemma set_appends now io key value s :
  exists suffix, disk (snd (set now io key value s)) = disk s ++ suffix.
Proof.
  rewrite set_run.
  destruct (encode_kv now key value) as [e|[size data]];
    [exists []; now rewrite app_nil_r|].
  destruct (closed (fw s)); [exists []; now rewrite app_nil_r|].
  cbn. eauto.
Qed.

Lemma close_appends io s :
  exists suffix, disk (snd (close io s)) = disk s ++ suffix.
Proof.
  rewrite close_run.
  destruct (closed (fw s)); [exists []; now rewrite app_nil_r|].
  destruct (fw_buffer s) as [|b stream]; [exists []; now rewrite app_nil_r|].
  destruct io; cbn; eauto.
Qed.

Lemma get_frame key s : frame s (snd (get key s)).
Proof.
  rewrite get_run.
  destruct (keydir s !! key) as [[offset size]|]; [|apply frame_refl].
  destruct (closed (fr s)) eqn:Hc; [apply frame_refl|]. cbn zeta.
  destruct (decode_kv _) as [e|[[ts k] v]]; now repeat split.
Qed.

(** X5. The log is append-only: whatever calls of [set], [get] and [close]
    are made, returning or raising, with the disk failing or not, the file
    afterwards starts with the octets it held before.  Nothing is ever
    overwritten or cut. *)
Theorem log_only_grows s s' :
  run_from s s' -> exists suffix, disk s' = disk s ++ suffix.
Proof.
  induction 1 as [|s' now io key value _ [suffix IH]|s' key _ [suffix IH]
                 |s' io _ [suffix IH]].
  - exists []. now rewrite app_nil_r.
  - destruct (set_appends now io key value s') as [more ->].
    exists (suffix ++ more). now rewrite IH, app_assoc.
  - destruct (get_frame key s') as (-> & _). now exists suffix.
  - destruct (close_appends io s') as [more ->].
    exists (suffix ++ more). now rewrite IH, app_assoc.
Qed.

Lemma log_only_grows_witness :
  run_from fresh after_ac /\ exists suffix, disk after_ac = disk fresh ++ suffix.
Proof.
  assert (R : run_from fresh after_ac) by (do 2 apply run_set; apply run_done).
  split; [exact R|]. exact (log_only_grows fresh after_ac R).
Defined.

(** X6. [get] only reads: whether it returns or raises, it leaves the file,
    the KeyDir and the append handle as they were, and it changes the answer
    of no later [get]; asking twice gives the same answer twice. *)
Theorem get_only_reads key key' s :
  disk (snd (get key s)) = disk s /\
  keydir (snd (get key s)) = keydir s /\
  fw (snd (get key s)) = fw s /\
  fst (get key' (snd (get key s))) = fst (get key' s).
Proof.
  destruct (get_frame key s) as (Hd & Hw & Hk & Hc & _).
  repeat split; auto. now apply get_ext.
Qed.

(** ** A closed engine *)

Lemma close_closes_writer io s : closed (fw (snd (close io s))) = true.
Proof.
  rewrite close_run.
  destruct (closed (fw s)) eqn:Ec; [exact Ec|].
  destruct (fw_buffer s) as [|b stream]; [reflexivity|].
  destruct io; reflexivity.
Qed.

(** X7. After [close()], whether it returned or raised, [set] always raises
    and changes nothing: the position of the closed append handle cannot be
    read, so the KeyDir is not touched and nothing is written. *)
Theorem set_after_close now io io' key value s :
  (exists e, fst (set now io key value (snd (close io' s))) = inl e) /\
  snd (set now io key value (snd (close io' s))) = snd (close io' s).
Proof.
  rewrite set_run, close_closes_writer.
  destruct (encode_kv now key value) as [e|[size data]]; cbn; eauto.
Qed.

(** X8. After a [close()] that returns, [get] of a key that is not in the
    KeyDir still returns the empty string, while [get] of a key that is in
    the KeyDir raises the error of the closed read handle; the engine is
    unchanged in both cases. *)
Theorem get_after_close io key s :
  fst (close io s) = inr tt ->
  get key (snd (close io s)) =
  (match keydir s !! key with
   | None => inr []
   | Some _ => inl ClosedFile
   end, snd (close io s)).
Proof.
  rewrite get_run, close_run.
  destruct (closed (fw s)).
  { intros _. cbn [snd keydir fr closed].
    destruct (keydir s !! key) as [[offset size]|]; reflexivity. }
  destruct (fw_buffer s) as [|b stream].
  { intros _. cbn [snd keydir fr closed].
    destruct (keydir s !! key) as [[offset size]|]; reflexivity. }
  destruct io; cbn [fst]; try discriminate.
  intros _. cbn [snd keydir fr closed].
  destruct (keydir s !! key) as [[offset size]|]; reflexivity.
Qed.

Lemma get_after_close_witness :
  fst (close Durable after_ab) = inr tt /\
  fst (get str_a (snd (close Durable after_ab))) = inl ClosedFile /\
  fst (get str_b (snd (close Durable after_ab))) = inr [].
Proof.
  assert (C : fst (close Durable after_ab) = inr tt) by reflexivity.
  split; [exact C|].
  pose proof (get_after_close Durable str_a after_ab C) as Ha.
  pose proof (get_after_close Durable str_b after_ab C) as Hb.
  split; [now rewrite Ha | now rewrite Hb].
Defined.

(** X20. [close()] raises only when the append handle is open and octets of
    an earlier, failed append still wait in its buffer and cannot be written
    now either.  The exception is [IOFailure]; the append handle is closed
    all the same and its buffer is gone, but the read handle is left as it
    was, open if it was open, because [fr.close()] is not reached. *)
Theorem close_raises io s e :
  fst (close io s) = inl e ->
  e = IOFailure /\
  closed (fw s) = false /\ fw_buffer s <> [] /\ io <> Durable /\
  closed (fw (snd (close io s))) = true /\
  fw_buffer (snd (close io s)) = [] /\
  fr (snd (close io s)) = fr s.
Proof.
  rewrite close_run.
  destruct (closed (fw s)); [discriminate|].
  destruct (fw_buffer s) as [|b stream]; [discriminate|].
  destruct io; cbn [fst snd]; [discriminate| |];
    intros [= <-]; repeat split; discriminate.
Qed.

Lemma close_raises_witness :
  fst (close (Fails 0) after_failed_ab) = inl IOFailure /\
  closed (fw (snd (close (Fails 0) after_failed_ab))) = true /\
  closed (fr (snd (close (Fails 0) after_failed_ab))) = false.
Proof.
  assert (C : fst (close (Fails 0) after_failed_ab) = inl IOFailure)
    by reflexivity.
  split; [exact C|].
  destruct (close_raises (Fails 0) after_failed_ab IOFailure C)
    as (_ & _ & _ & _ & Hw & _ & Hr).
  split; [exact Hw|]. now rewrite Hr.
Defined.

(** ** One key does not disturb another *)

Lemma get_after_append recs s key k entry (more buffer : bytes) h :
  consistent recs s -> k <> key ->
  fst (get key (MkStore (disk s ++ more) h (fr s) (<[k := entry]> (keydir s))
                  buffer))
  = fst (get key s).
Proof.
  intros Hc Hne. rewrite !get_run. cbn [keydir disk fr].
  rewrite lookup_insert_ne by exact Hne.
  destruct (keydir s !! key) as [[offset sz]|] eqn:Hk; [|reflexivity].
  destruct (consistent_entries_decode _ _ _ _ _ Hc Hk) as (Hb & _).
  destruct (closed (fr s)); [reflexivity|]. cbn zeta.
  rewrite slice_app by exact Hb.
  destruct (decode_kv _) as [e|[[ts k'] v']]; reflexivity.
Qed.

Lemma set_keeps_other_keys_aux recs now io k v s key :
  consistent recs s ->
  k <> key ->
  fst (get key (snd (set now io k v s))) = fst (get key s).
Proof.
  intros Hc Hne. rewrite set_run.
  destruct (encode_kv now k v) as [e|[size data]]; [reflexivity|].
  destruct (closed (fw s)); [reflexivity|].
  cbn [snd]. now apply get_after_append with recs.
Qed.

(** X9. On an engine whose KeyDir agrees with its log, a [set] of one key
    leaves the answer of [get] for every other key as it was, whether the
    [set] returns, is refused, or fails in the middle of its append. *)
Theorem set_keeps_other_keys recs now io k v s key :
  consistent recs s ->
  k <> key ->
  fst (get key (snd (set now io k v s))) = fst (get key s).
Proof. apply set_keeps_other_keys_aux. Qed.

Lemma consistent_after_ab :
  consistent [(1700000000, str_a, str_b)] after_ab.
Proof. repeat split. Qed.

Lemma set_keeps_other_keys_witness :
  consistent [(1700000000, str_a, str_b)] after_ab /\
  str_c <> str_a /\
  fst (get str_a (snd (set 1700000001 (Fails 5) str_c str_b after_ab)))
  = fst (get str_a after_ab).
Proof.
  assert (C : consistent [(1700000000, str_a, str_b)] after_ab)
    by (repeat split).
  assert (N : str_c <> str_a) by discriminate.
  split; [exact C|]. split; [exact N|].
  exact (set_keeps_other_keys _ 1700000001 (Fails 5) str_c str_b after_ab
           str_a C N).
Defined.

(** ** Runs without failed appends *)

(** X10. In a run that starts on a log of complete records and in which no
    append fails, [get] never raises, whatever [set] and [get] calls came
    before and whether those [set] calls were accepted or refused: it
    returns a value for every key. *)
Theorem get_returns_in_steady_runs s key :
  steady s -> exists value, fst (get key s) = inr value.
Proof. apply steady_get_returns. Qed.

Lemma get_returns_in_steady_runs_witness :
  steady after_ac /\ exists value, fst (get str_a after_ac) = inr value.
Proof.
  assert (S : steady after_ac).
  { do 2 apply steady_set. apply (steady_init []); [|reflexivity].
    exists []. reflexivity. }
  split; [exact S|]. exact (get_returns_in_steady_runs after_ac str_a S).
Defined.

(** ** A failed append hides the key *)

Lemma decode_kv_short ts kb vb n :
  fits_u32 ts = true -> fits_u32 (N.of_nat (length kb)) = true ->
  fits_u32 (N.of_nat (length vb)) = true ->
  (n < HEADER_SIZE + length kb + length vb)%nat ->
  decode_kv (take n (header_bytes ts (N.of_nat (length kb))
                       (N.of_nat (length vb)) ++ kb ++ vb))
  = inl MalformedRecord.
Proof.
  intros Ht Hk Hv Hn.
  set (hdr := header_bytes ts (N.of_nat (length kb)) (N.of_nat (length vb))).
  assert (Lh : length hdr = HEADER_SIZE) by apply length_header_bytes.
  unfold decode_kv. rewrite take_take.
  destruct (Nat.lt_ge_cases n HEADER_SIZE) as [Hlt|Hge].
  - rewrite Nat.min_r by lia. unfold decode_header.
    rewrite length_take, !length_app, Lh.
    destruct (Nat.ltb_spec (n `min` (HEADER_SIZE + (length kb + length vb)))
                HEADER_SIZE); [reflexivity | lia].
  - rewrite Nat.min_l by lia.
    rewrite take_app_length' by now rewrite Lh.
    unfold hdr. rewrite decode_header_encode by assumption.
    fold hdr. rewrite length_drop, length_take, !length_app, Lh.
    destruct (N.ltb_spec
                (N.of_nat (n `min` (HEADER_SIZE + (length kb + length vb))
                           - HEADER_SIZE))
                (N.of_nat (length kb) + N.of_nat (length vb)));
      [reflexivity | lia].
Qed.

Lemma pushed_prefix io (stream : bytes) :
  io <> Durable -> exists n, pushed io stream = take n stream.
Proof. destruct io as [|n|n m]; [congruence | eauto..]. Qed.

(** X11. On an open engine, a [set] whose record is valid and whose push to
    the disk fails before the whole record is written raises [IOFailure],
    leaves the KeyDir entry of the key pointing at the place the record was
    to take (the position [fw.tell()] returned, with its full size), and
    makes the [get] of the key that follows raise: a value the key had
    before is not returned. *)
Theorem failed_append_hides_key now io key value s size data :
  reachable s ->
  closed (fw s) = false ->
  encode_kv now key value = inr (size, data) ->
  io <> Durable ->
  (length (pushed io (fw_buffer s ++ data)) < length (fw_buffer s) + size)%nat ->
  fst (set now io key value s) = inl IOFailure /\
  keydir (snd (set now io key value s)) !! key
  = Some ((length (disk s) + length (fw_buffer s))%nat, size) /\
  fst (get key (snd (set now io key value s))) = inl MalformedRecord.
Proof.
  intros [Hpos Hcl]%reachable_inv Hw He Hio Hn.
  rewrite set_run, He, Hw. cbn zeta. cbn [fst snd keydir].
  rewrite lookup_insert_eq, Hpos.
  split; [destruct io; [congruence | reflexivity..]|]. split; [reflexivity|].
  rewrite get_run. cbn [keydir disk fr]. rewrite lookup_insert_eq, (Hcl Hw).
  cbn zeta.
  pose proof (encode_kv_length _ _ _ _ _ He) as Hlen.
  destruct (pushed_prefix io (fw_buffer s ++ data) Hio) as [n Hp].
  rewrite Hp in Hn |- *.
  rewrite length_take, length_app, Hlen in Hn.
  rewrite drop_app_add, skipn_firstn_comm, drop_app_length, take_take.
  rewrite Nat.min_r by lia.
  apply encode_kv_inv in He as (kb & vb & _ & _ & Ht & Hk & Hv & -> & ->).
  assert (Hshort : (n - length (fw_buffer s)
                    < HEADER_SIZE + length kb + length vb)%nat)
    by (unfold HEADER_SIZE in *; lia).
  rewrite decode_kv_short by assumption. reflexivity.
Qed.

Lemma failed_append_hides_key_witness :
  reachable after_ab /\
  closed (fw after_ab) = false /\
  encode_kv 1700000001 str_a str_c = inr (14%nat, skipn 14 (disk after_ac)) /\
  Fails 13 <> Durable /\
  (length (pushed (Fails 13)
             (fw_buffer after_ab ++ skipn 14 (disk after_ac)))
   < length (fw_buffer after_ab) + 14)%nat /\
  fst (get str_a after_ab) = inr str_b /\
  fst (get str_a (snd (set 1700000001 (Fails 13) str_a str_c after_ab)))
  = inl MalformedRecord.
Proof.
  assert (R : reachable after_ab) by (apply reach_set, reachable_fresh).
  assert (W : closed (fw after_ab) = false) by reflexivity.
  assert (E : encode_kv 1700000001 str_a str_c
              = inr (14%nat, skipn 14 (disk after_ac))) by reflexivity.
  assert (D : Fails 13 <> Durable) by discriminate.
  assert (L : (length (pushed (Fails 13)
                         (fw_buffer after_ab ++ skipn 14 (disk after_ac)))
               < length (fw_buffer after_ab) + 14)%nat)
    by (vm_compute; lia).
  repeat (split; [assumption|]). split; [reflexivity|].
  exact (proj2 (proj2 (failed_append_hides_key 1700000001 (Fails 13) str_a
                         str_c after_ab 14 _ R W E D L))).
Defined.

(** ** The dictionary-style API *)

(** X12. [db[key] = value] followed by [db[key]]: in every state the API
    leads to, an item assignment that returns is followed by an item lookup
    that returns the value assigned. *)
Theorem setitem_getitem now io key value s s' :
  reachable s ->
  __setitem__ now io key value s = (inr tt, s') ->
  fst (__getitem__ key s') = inr value.
Proof. unfold __setitem__, __getitem__. apply set_then_get. Qed.

Lemma setitem_getitem_witness :
  reachable fresh /\
  __setitem__ 1700000000 Durable str_a str_b fresh = (inr tt, after_ab) /\
  fst (__getitem__ str_a after_ab) = inr str_b.
Proof.
  assert (R : reachable fresh) by (apply (reach_init []); reflexivity).
  assert (E : __setitem__ 1700000000 Durable str_a str_b fresh
              = (inr tt, after_ab)) by reflexivity.
  split; [exact R|]. split; [exact E|].
  exact (setitem_getitem 1700000000 Durable str_a str_b fresh after_ab R E).
Defined.

(** ** When [set] returns and what a refused [set] leaves *)

(** X13. A [set] that raises anything but [IOFailure] (an invalid triple, a
    closed engine) leaves the engine and the file exactly as they were. *)
Theorem refused_set_changes_nothing now io key value s e :
  fst (set now io key value s) = inl e ->
  e <> IOFailure ->
  snd (set now io key value s) = s.
Proof.
  rewrite set_run.
  destruct (encode_kv now key value) as [e'|[size data]]; [reflexivity|].
  destruct (closed (fw s)); [reflexivity|].
  destruct io; [discriminate|..]; cbn; intros [= <-]; congruence.
Qed.

Lemma refused_set_changes_nothing_witness :
  fst (set (2 ^ 32) Durable str_a str_b after_ab) = inl InvalidInput /\
  InvalidInput <> IOFailure /\
  snd (set (2 ^ 32) Durable str_a str_b after_ab) = after_ab.
Proof.
  assert (E : fst (set (2 ^ 32) Durable str_a str_b after_ab) = inl InvalidInput)
    by reflexivity.
  assert (N : InvalidInput <> IOFailure) by discriminate.
  split; [exact E|]. split; [exact N|].
  exact (refused_set_changes_nothing (2 ^ 32) Durable str_a str_b after_ab
           InvalidInput E N).
Defined.

(** X14. [set] returns exactly when the triple is valid (key and value have
    a UTF-8 form, timestamp and both lengths fit the header), the append
    handle is open and the append reaches the disk. *)
Theorem set_returns_iff now io key value s :
  fst (set now io key value s) = inr tt <->
  valid_triple now key value = true /\ closed (fw s) = false /\ io = Durable.
Proof.
  rewrite set_run. unfold encode_kv, valid_triple.
  destruct (utf8_encode key) as [kb|]; [|split; [discriminate | now intros [? _]]].
  destruct (utf8_encode value) as [vb|];
    [|split; [discriminate | now intros [? _]]].
  destruct (fits_u32 now && fits_u32 (N.of_nat (length kb))
            && fits_u32 (N.of_nat (length vb)));
    [|split; [discriminate | now intros [? _]]].
  destruct (closed (fw s)); [split; [discriminate | now intros (_ & ? & _)]|].
  destruct io; cbn; [tauto|..];
    (split; [discriminate | now intros (_ & _ & ?)]).
Qed.

(** ** Truncated records, in general *)

(** X15. A log of complete records followed by a record cut inside its
    header makes the constructor raise [MalformedHeader]. *)
Theorem cut_in_header_raises recs d ts key value size data p :
  log_bytes recs = Some d ->
  encode_kv ts key value = inr (size, data) ->
  (0 < p < HEADER_SIZE)%nat ->
  __init__ (d ++ take p data) = inl MalformedHeader.
Proof. apply init_truncated_header. Qed.

Lemma cut_in_header_raises_witness :
  log_bytes [(1700000000, str_a, str_b)] = Some log_ab /\
  encode_kv 1700000001 str_a str_c = inr (14%nat, skipn 14 (disk after_ac)) /\
  (0 < 7 < HEADER_SIZE)%nat /\
  __init__ (log_ab ++ take 7 (skipn 14 (disk after_ac))) = inl MalformedHeader.
Proof.
  assert (L : log_bytes [(1700000000, str_a, str_b)] = Some log_ab)
    by reflexivity.
  assert (E : encode_kv 1700000001 str_a str_c
              = inr (14%nat, skipn 14 (disk after_ac))) by reflexivity.
  assert (P : (0 < 7 < HEADER_SIZE)%nat) by (unfold HEADER_SIZE; lia).
  repeat (split; [assumption|]).
  exact (cut_in_header_raises _ _ _ _ _ _ _ 7%nat L E P).
Defined.

(** X16. A log of complete records followed by a record cut inside its
    value makes the constructor raise nothing: it returns an engine whose
    KeyDir has an entry for the key of the cut record, of the full size of
    the record, reaching beyond the end of the file. *)
Theorem cut_in_value_loads recs d ts key value size data kb p :
  log_bytes recs = Some d ->
  encode_kv ts key value = inr (size, data) ->
  utf8_encode key = Some kb ->
  (HEADER_SIZE + length kb <= p < size)%nat ->
  exists s,
    __init__ (d ++ take p data) = inr s /\
    keydir s = <[key := (length d, size)]> (log_keydir 0 recs ∅) /\
    disk s = d ++ take p data /\
    (length (disk s) < length d + size)%nat.
Proof. apply init_truncated_value. Qed.

Lemma cut_in_value_loads_witness :
  log_bytes [] = Some [] /\
  encode_kv 1700000000 str_a str_b = inr (14%nat, log_ab) /\
  utf8_encode str_a = Some ["a"%byte] /\
  (HEADER_SIZE + length ["a"%byte] <= 13 < 14)%nat /\
  exists s,
    __init__ ([] ++ take 13 log_ab) = inr s /\
    keydir s = <[str_a := (length (@nil byte), 14%nat)]> (log_keydir 0 [] ∅) /\
    disk s = [] ++ take 13 log_ab /\
    (length (disk s) < length (@nil byte) + 14)%nat.
Proof.
  assert (L : log_bytes [] = Some []) by reflexivity.
  assert (E : encode_kv 1700000000 str_a str_b = inr (14%nat, log_ab))
    by reflexivity.
  assert (K : utf8_encode str_a = Some ["a"%byte]) by reflexivity.
  assert (P : (HEADER_SIZE + length ["a"%byte] <= 13 < 14)%nat)
    by (cbn; lia).
  repeat (split; [assumption|]).
  exact (cut_in_value_loads [] [] 1700000000 str_a str_b 14 log_ab
           ["a"%byte] 13 L E K P).
Defined.

(** * The benchmark scripts *)

(** ** [random_str] *)

Lemma hex_digit_value d : d < 16 -> hex_value_digit (hex_digit d) = d.
Proof.
  intros H. unfold hex_digit, hex_value_digit.
  destruct (N.ltb_spec d 10).
  - destruct (N.ltb_spec (48 + d) 58); lia.
  - destruct (N.ltb_spec (87 + d) 58); lia.
Qed.

Lemma hex_digit_is_hex d : d < 16 -> is_hex (hex_digit d) = true.
Proof.
  intros H. unfold hex_digit, is_hex.
  destruct (N.ltb_spec d 10).
  - apply orb_true_intro. left. apply andb_true_intro.
    split; [apply N.leb_le | apply N.ltb_lt]; lia.
  - apply orb_true_intro. right. apply andb_true_intro.
    split; [apply N.leb_le | apply N.ltb_lt]; lia.
Qed.

Lemma hex_rev_length fuel :
  forall n k, n < 16 ^ N.of_nat k -> (length (hex_rev fuel n) <= k)%nat.
Proof.
  induction fuel as [|fuel IH]; intros n k Hn; cbn [hex_rev length]; [lia|].
  destruct (N.eqb_spec n 0) as [->|Hz]; [cbn; lia|].
  destruct k as [|k]; [cbn in Hn; lia|].
  cbn [length]. apply le_n_S, IH.
  rewrite Nat2N.inj_succ, N.pow_succ_r' in Hn.
  apply N.Div0.div_lt_upper_bound. exact Hn.
Qed.

Lemma hex_rev_hex fuel : forall n, forallb is_hex (hex_rev fuel n) = true.
Proof.
  induction fuel as [|fuel IH]; intros n; cbn [hex_rev]; [reflexivity|].
  destruct (n =? 0); [reflexivity|]. cbn [forallb].
  rewrite IH, hex_digit_is_hex; [reflexivity|].
  apply N.mod_upper_bound. lia.
Qed.

Lemma forallb_rev {A} (f : A -> bool) l : forallb f (rev l) = forallb f l.
Proof.
  induction l as [|x l IH]; [reflexivity|]. cbn [rev forallb].
  rewrite forallb_app, IH. cbn [forallb].
  rewrite andb_true_r. apply andb_comm.
Qed.

Lemma hex_rev_value fuel :
  forall n, n < 16 ^ N.of_nat fuel ->
            fold_right (fun c acc => 16 * acc + hex_value_digit c) 0
              (hex_rev fuel n) = n.
Proof.
  induction fuel as [|fuel IH]; intros n Hn; cbn [hex_rev fold_right].
  - cbn in Hn. lia.
  - destruct (N.eqb_spec n 0) as [->|Hz]; [reflexivity|].
    cbn [fold_right]. rewrite IH.
    + rewrite hex_digit_value by (apply N.mod_upper_bound; lia).
      pose proof (N.div_mod' n 16). lia.
    + rewrite Nat2N.inj_succ, N.pow_succ_r' in Hn.
      apply N.Div0.div_lt_upper_bound. exact Hn.
Qed.

Lemma size_bounds_hex n : n < 16 ^ N.of_nat (N.to_nat (N.size n)).
Proof.
  rewrite N2Nat.id.
  apply N.lt_le_trans with (2 ^ N.size n); [apply N.size_gt|].
  apply N.pow_le_mono_l. lia.
Qed.

Lemma hex_value_zeros z s : hex_value (replicate z 48 ++ s) = hex_value s.
Proof.
  unfold hex_value. rewrite fold_left_app. f_equal.
  induction z as [|z IH]; [reflexivity|]. cbn. exact IH.
Qed.

Lemma format_x_value n : hex_value (format_x n) = n.
Proof.
  unfold format_x. destruct (N.eqb_spec n 0) as [->|Hz]; [reflexivity|].
  unfold hex_value.
  rewrite <- (rev_involutive (hex_rev _ n)) at 1.
  rewrite rev_involutive.
  rewrite <- fold_left_rev_right, rev_involutive.
  apply hex_rev_value, size_bounds_hex.
Qed.

Lemma format_x_length n k :
  (0 < k)%nat -> n < 16 ^ N.of_nat k -> (0 < length (format_x n) <= k)%nat.
Proof.
  intros Hk Hn. unfold format_x.
  destruct (N.eqb_spec n 0) as [->|Hz]; [cbn; lia|].
  rewrite length_rev. split; [|now apply hex_rev_length].
  destruct (N.to_nat (N.size n)) as [|f] eqn:Hs.
  - pose proof (size_bounds_hex n) as B. rewrite Hs in B. cbn in B. lia.
  - cbn [hex_rev]. destruct (N.eqb_spec n 0); [contradiction|]. cbn. lia.
Qed.

(** X17. [random_str(k)] for [k >= 1]: whatever number of the range
    0..16^k-1 was drawn, the string has exactly [k] characters, all of them
    hexadecimal digits, and it stands for the number drawn, so that
    different draws give different strings. *)
Theorem random_str_shape k r :
  (0 < k)%nat ->
  r < 16 ^ N.of_nat k ->
  length (random_str k r) = k /\
  forallb is_hex (random_str k r) = true /\
  hex_value (random_str k r) = r.
Proof.
  intros Hk Hr. unfold random_str, zfill.
  destruct (format_x_length r k Hk Hr) as [L1 L2].
  split; [|split].
  - rewrite length_app, length_replicate. lia.
  - rewrite forallb_app. apply andb_true_intro. split.
    + induction (k - length (format_x r))%nat as [|z IH]; [reflexivity|].
      exact IH.
    + unfold format_x. destruct (r =? 0); [reflexivity|].
      rewrite forallb_rev. apply hex_rev_hex.
  - rewrite hex_value_zeros. apply format_x_value.
Qed.

Lemma random_str_shape_witness :
  (0 < 2)%nat /\ 10 < 16 ^ N.of_nat 2 /\
  length (random_str 2 10) = 2%nat /\
  forallb is_hex (random_str 2 10) = true /\
  hex_value (random_str 2 10) = 10.
Proof.
  assert (K : (0 < 2)%nat) by lia.
  assert (R : 10 < 16 ^ N.of_nat 2) by reflexivity.
  split; [exact K|]. split; [exact R|].
  exact (random_str_shape 2 10 K R).
Defined.

(** ** [write.py] *)

Lemma utf8_encode_ascii s :
  forallb (fun c => c <? 0x80) s = true ->
  exists bs, utf8_encode s = Some bs /\ length bs = length s.
Proof.
  induction s as [|c s IH]; cbn [forallb utf8_encode length]; [eauto|].
  intros [Hc Hs]%andb_true_iff. destruct (IH Hs) as (bs & -> & L).
  unfold utf8_encode_char. rewrite Hc.
  eexists. split; [reflexivity|]. cbn [app length]. now rewrite L.
Qed.

Lemma is_hex_ascii c : is_hex c = true -> (c <? 0x80) = true.
Proof.
  unfold is_hex. intros H. apply N.ltb_lt.
  apply orb_true_iff in H as [[_ H%N.ltb_lt]%andb_true_iff
                             |[_ H%N.ltb_lt]%andb_true_iff]; lia.
Qed.

Lemma random_str_2_encode r :
  r < 256 ->
  exists bs, utf8_encode (random_str 2 r) = Some bs /\ length bs = 2%nat.
Proof.
  intros Hr.
  destruct (random_str_shape 2 r ltac:(lia) Hr) as (L & Hx & _).
  destruct (utf8_encode_ascii (random_str 2 r)) as (bs & E & Lb).
  - apply forallb_forall. intros c Hc.
    apply is_hex_ascii. revert c Hc. now apply forallb_forall.
  - exists bs. split; [exact E | congruence].
Qed.

Lemma random_str_2_key r : r < 256 -> random_str 2 r ∈ hex_keys.
Proof.
  intros Hr. unfold hex_keys. apply elem_of_list_to_set, list_elem_of_fmap.
  exists (N.to_nat r). rewrite N2Nat.id. split; [reflexivity|].
  apply elem_of_seq. lia.
Qed.

Lemma write_round_run recs now r1 r2 s :
  consistent recs s -> live s -> flushed s ->
  fits_u32 now = true -> r1 < 256 -> r2 < 256 ->
  exists recs' s',
    __setitem__ now Durable (random_str 2 r1) (random_str 2 r2) s = (inr tt, s') /\
    consistent recs' s' /\ live s' /\ flushed s' /\
    length (disk s') = (length (disk s) + 16)%nat /\
    dom (keydir s') ⊆ dom (keydir s) ∪ hex_keys.
Proof.
  intros Hc [Hw Hr] Hf Hn H1 H2. unfold __setitem__.
  destruct (random_str_2_encode r1 H1) as (kb & Ek & Lk).
  destruct (random_str_2_encode r2 H2) as (vb & Ev & Lv).
  assert (Hv : valid_triple now (random_str 2 r1) (random_str 2 r2) = true).
  { unfold valid_triple. rewrite Ek, Ev, Lk, Lv, Hn. reflexivity. }
  pose proof (proj2 (set_returns_iff now Durable _ _ s)
                (conj Hv (conj Hw eq_refl))) as Hret.
  destruct (set now Durable (random_str 2 r1) (random_str 2 r2) s)
    as [[e|[]] s'] eqn:Es; [discriminate|].
  destruct (set_consistent _ _ _ _ _ _ _ Hc Hf Es) as (Hc' & Hr' & Hw' & Hf').
  exists (recs ++ [(now, random_str 2 r1, random_str 2 r2)]), s'.
  split; [reflexivity|]. split; [exact Hc'|].
  split; [split; congruence|]. split; [exact Hf'|].
  apply set_returns in Es as (size & data & He & _ & _ & ->).
  cbn [disk keydir]. unfold flushed in Hf. rewrite Hf. cbn [app]. split.
  - rewrite length_app. f_equal.
    rewrite (encode_kv_length _ _ _ _ _ He).
    apply encode_kv_inv in He as (kb' & vb' & Ek' & Ev' & _ & _ & _ & -> & _).
    rewrite Ek in Ek'. rewrite Ev in Ev'.
    injection Ek' as <-. injection Ev' as <-. rewrite Lk, Lv. reflexivity.
  - rewrite dom_insert_L. apply union_least; [|apply union_subseteq_l].
    apply singleton_subseteq_l, elem_of_union_r, random_str_2_key, H1.
Qed.

Lemma write_rounds_run env :
  forall recs s n,
    consistent recs s -> live s -> flushed s ->
    forallb round_ok env = true ->
    exists recs' s',
      write_rounds env n s = (inr (n + N.of_nat (length env)), s') /\
      consistent recs' s' /\ live s' /\ flushed s' /\
      length (disk s') = (length (disk s) + 16 * length env)%nat /\
      dom (keydir s') ⊆ dom (keydir s) ∪ hex_keys.
Proof.
  induction env as [|[[[[now io] r1] r2] throughput] env IH];
    intros recs s n Hc Hl Hf Hok.
  - exists recs, s. cbn [write_rounds length].
    rewrite N.add_0_r, Nat.mul_0_r, Nat.add_0_r.
    repeat split; try apply Hc; try apply Hl; try exact Hf.
    apply union_subseteq_l.
  - cbn [forallb round_ok] in Hok.
    apply andb_true_iff in Hok as [Hround Hok].
    apply andb_true_iff in Hround as [Hround Hlog].
    apply andb_true_iff in Hround as [Hround H2%N.ltb_lt].
    apply andb_true_iff in Hround as [Hround H1%N.ltb_lt].
    apply andb_true_iff in Hround as [Hn Hio].
    destruct io as [|k|k m]; [|discriminate..].
    destruct throughput as [e|[]]; [discriminate|].
    destruct (write_round_run recs now r1 r2 s Hc Hl Hf Hn H1 H2)
      as (recs1 & s1 & Es & Hc1 & Hl1 & Hf1 & Ld & Hdom).
    destruct (IH recs1 s1 (n + 1) Hc1 Hl1 Hf1 Hok)
      as (recs' & s' & Er & Hc' & Hl' & Hf' & Ld' & Hdom').
    exists recs', s'. cbn [write_rounds length]. rewrite bind_run, Es, bind_run.
    assert (Hlog' : (if (n + 1) mod 1000000 =? 0 then lift (inr tt) else mret tt) s1
                    = (inr tt, s1))
      by (destruct ((n + 1) mod 1000000 =? 0); reflexivity).
    rewrite Hlog', Er.
    split; [f_equal; f_equal; lia|]. split; [exact Hc'|]. split; [exact Hl'|].
    split; [exact Hf'|].
    split; [lia|]. etrans; [exact Hdom'|].
    apply union_least; [exact Hdom | apply union_subseteq_r].
Qed.

Lemma size_hex_keys : base.size hex_keys = 256%nat.
Proof. vm_compute. reflexivity. Qed.

(** X18. [write.py] on a file of complete records, in rounds in which the
    clock fits the header, the disk takes the append, the draws are in range
    and the throughput message, in the rounds in which it is due, is
    computed without error (the clock has moved since the start): no round
    raises, the counter counts the rounds, every round makes the file
    exactly 16 octets longer, and the KeyDir gains at most 256 entries
    however many rounds are run. *)
Theorem write_rounds_grow d db env :
  engine_written d ->
  __init__ d = inr db ->
  forallb round_ok env = true ->
  exists s',
    write_rounds env 0 db = (inr (N.of_nat (length env)), s') /\
    length (disk s') = (length d + 16 * length env)%nat /\
    (base.size (keydir s') <= base.size (keydir db) + 256)%nat.
Proof.
  intros [recs Hlog] Hi Hok.
  destruct (init_consistent _ _ _ Hlog Hi) as (Hc & Hl & Hf).
  destruct (init_frame _ _ Hi) as (Hd & _).
  destruct (write_rounds_run env recs db 0 Hc Hl Hf Hok)
    as (recs' & s' & Er & _ & _ & _ & Ld & Hdom).
  exists s'. split; [exact Er|]. split; [now rewrite Ld, Hd|].
  rewrite <- !size_dom. apply subseteq_size in Hdom.
  pose proof (size_union_alt (dom (keydir db)) hex_keys) as U.
  pose proof (subseteq_size (hex_keys ∖ dom (keydir db)) hex_keys
                (subseteq_difference_l _ _ _ (reflexivity _))) as V.
  rewrite size_hex_keys in V. lia.
Qed.

Lemma write_rounds_grow_witness :
  engine_written [] /\
  __init__ [] = inr fresh /\
  forallb round_ok [(1700000000, Durable, 10, 255, inr tt);
                    (1700000001, Durable, 10, 0, inr tt)] = true /\
  exists s',
    write_rounds [(1700000000, Durable, 10, 255, inr tt);
                  (1700000001, Durable, 10, 0, inr tt)] 0 fresh
    = (inr 2, s') /\
    length (disk s') = 32%nat /\
    (base.size (keydir s') <= base.size (keydir fresh) + 256)%nat.
Proof.
  assert (W : engine_written []) by (exists []; reflexivity).
  assert (I : __init__ [] = inr fresh) by reflexivity.
  assert (O : forallb round_ok [(1700000000, Durable, 10, 255, inr tt);
                                (1700000001, Durable, 10, 0, inr tt)] = true)
    by reflexivity.
  repeat (split; [assumption|]).
  exact (write_rounds_grow [] fresh _ W I O).
Defined.

(** When the throughput message is due and the clock has not moved, the
    round raises [ZeroDivisionError], after the record of the round was
    written. *)
Lemma write_round_division now r1 r2 env recs s :
  consistent recs s -> live s -> flushed s ->
  fits_u32 now = true -> r1 < 256 -> r2 < 256 ->
  fst (write_rounds ((now, Durable, r1, r2, inl ZeroDivisionError) :: env)
         999999 s)
  = inl ZeroDivisionError.
Proof.
  intros Hc Hl Hf Hn H1 H2.
  destruct (write_round_run recs now r1 r2 s Hc Hl Hf Hn H1 H2)
    as (recs1 & s1 & Es & _).
  cbn [write_rounds]. rewrite bind_run, Es, bind_run. reflexivity.
Qed.

(** ** [read.py] *)







